(** * Burn-scar detection with the Normalized Burn Ratio (core.py)

    A shallow embedding of the GFW-Fires prototype: per-pixel cloud scoring,
    cloud masking, temporal compositing, NBR differencing and thresholding,
    and the fire buffer.

    The program is written against the Earth Engine client, whose images are
    evaluated remotely.  A raster is modelled by what it denotes: for every
    band and every pixel either a value or no-data.  Pixel values are exact
    rationals ([Q]); rounding of the binary floating-point numbers of the
    backend is not modelled.  Evaluation of a raster expression either
    produces a raster or fails, so the operations that can fail return a
    [Result]. *)

From Stdlib Require Import QArith Qminmax Lqa List String ZArith Permutation Lia Bool.
Import ListNotations.
Open Scope Q_scope.
Open Scope string_scope.

(** ** Errors (the taxonomy of section 7 of the specification) *)

Inductive Error : Type :=
| EmptyCollectionError
| InvalidRangeError
| BandMismatchError
| BackendError.

Inductive Result (A : Type) : Type :=
| Ok (a : A)
| Err (e : Error).
Arguments Ok {A} a.
Arguments Err {A} e.

Definition bind {A B : Type} (c : Result A) (k : A -> Result B) : Result B :=
  match c with
  | Ok a => k a
  | Err e => Err e
  end.

Notation "x <- c ;; k" := (bind c (fun x => k))
  (at level 61, c at next level, right associativity).

Fixpoint mapM {A B : Type} (f : A -> Result B) (l : list A) : Result (list B) :=
  match l with
  | [] => Ok []
  | x :: l' => y <- f x ;; ys <- mapM f l' ;; Ok (y :: ys)
  end.

(** ** The raster backend

    The operations of the Earth Engine client that core.py calls.  They are
    not part of the repository; each one is given the per-pixel meaning that
    section 6 of the specification (and the text of 4.2 to 4.4) gives it. *)

Module EE.

Definition Pixel : Type := (Z * Z)%type.

(** A single-band raster (a cloud score, an NBR image, a burn mask);
    [None] is a masked, no-data pixel. *)
Definition Band : Type := Pixel -> option Q.

(** A raster with named bands, in band order. *)
Definition Image : Type := list (string * Band).

Definition lift1 (f : Q -> Q) (a : Band) : Band :=
  fun p => match a p with
           | Some x => Some (f x)
           | None => None
           end.

(** A binary operation is defined where both operands are. *)
Definition lift2 (f : Q -> Q -> Q) (a b : Band) : Band :=
  fun p => match a p, b p with
           | Some x, Some y => Some (f x y)
           | _, _ => None
           end.

(** [ee.Image(c)] *)
Definition constant (c : Q) : Band := fun _ => Some c.

Definition add : Band -> Band -> Band := lift2 Qplus.
Definition subtract : Band -> Band -> Band := lift2 Qminus.
Definition divide : Band -> Band -> Band := lift2 Qdiv.
Definition min : Band -> Band -> Band := lift2 Qmin.

Definition truth (b : bool) : Q := if b then 1 else 0.

(** [a.lte(c)] and [a.gt(c)]: 1 where the comparison holds, 0 elsewhere. *)
Definition lte (a : Band) (c : Q) : Band :=
  lift1 (fun x => truth (Qle_bool x c)) a.
Definition gt (a : Band) (c : Q) : Band :=
  lift1 (fun x => truth (negb (Qle_bool x c))) a.

(** Modelled from the spec: [mask(raster, binaryMask)] applies and
    propagates no-data (section 6): a pixel stays as it is where the mask is
    defined and non-zero and is no-data elsewhere. *)
Definition mask1 (b m : Band) : Band :=
  fun p => match m p with
           | Some v => if Qeq_bool v 0 then None else b p
           | None => None
           end.

(** A single-band mask applies to every band of the image. *)
Definition mask (img : Image) (m : Band) : Image :=
  map (fun nb => (fst nb, mask1 (snd nb) m)) img.

Fixpoint lookup (name : string) (img : Image) : option Band :=
  match img with
  | [] => None
  | (n, b) :: rest => if String.eqb name n then Some b else lookup name rest
  end.

(** Selecting a band the raster lacks fails (BandMismatchError). *)
Definition select (img : Image) (name : string) : Result Band :=
  match lookup name img with
  | Some b => Ok b
  | None => Err BandMismatchError
  end.

(** The value of band [name] at pixel [p]; no-data when the band is absent. *)
Definition value (img : Image) (name : string) (p : Pixel) : option Q :=
  match lookup name img with
  | Some b => b p
  | None => None
  end.

(** The expressions core.py evaluates: ['img.B2'], ['img.B4 + img.B3 +
    img.B2'] and ['img'] (the image itself, which is then single-band). *)
Inductive Exp : Type :=
| Ref (name : string)
| Self
| Plus (e1 e2 : Exp).

Fixpoint expression (img : Image) (exp : Exp) : Result Band :=
  match exp with
  | Ref name => select img name
  | Self => match img with
            | (_, b) :: _ => Ok b
            | [] => Err BandMismatchError
            end
  | Plus e1 e2 =>
      x <- expression img e1 ;;
      y <- expression img e2 ;;
      Ok (add x y)
  end.

(** Modelled from the spec: the normalized difference [(a - b) / (a + b)];
    a zero denominator gives no-data for that pixel (4.4, step 2). *)
Definition nd (a b : option Q) : option Q :=
  match a, b with
  | Some x, Some y =>
      if Qeq_bool (x + y) 0 then None else Some ((x - y) / (x + y))
  | _, _ => None
  end.

Definition normalizedDifference (img : Image) (a b : string) : Result Band :=
  x <- select img a ;;
  y <- select img b ;;
  Ok (fun p => nd (x p) (y p)).

(** The single-band image that [normalizedDifference] returns. *)
Definition single (b : Band) : Image := [("nd", b)].

(** An image collection: the band names its images share and the images,
    each with its acquisition time. *)
Record ImageCollection : Type := {
  bandNames : list string;
  scenes : list (Z * Image)
}.

(** [collection.filterDate(start, end)]: the images whose acquisition time
    the backend's date test [within start end] accepts. *)
Definition filterDate (within : string -> string -> Z -> bool)
    (c : ImageCollection) (start end_ : string) : ImageCollection :=
  {| bandNames := bandNames c;
     scenes := filter (fun s => within start end_ (fst s)) (scenes c) |}.

(** [collection.map(f)] *)
Definition map (f : Image -> Result Image) (c : ImageCollection)
  : Result ImageCollection :=
  l <- mapM (fun s => img <- f (snd s) ;; Ok (fst s, img)) (scenes c) ;;
  Ok {| bandNames := bandNames c; scenes := l |}.

(** The minimum of two pixels for a reduction: no-data pixels are left out. *)
Definition omin (a b : option Q) : option Q :=
  match a, b with
  | Some x, Some y => Some (Qmin x y)
  | Some x, None => Some x
  | None, _ => b
  end.

(** Modelled from the spec: [reduceMin(collection)], which core.py calls as
    [collection.min()]: the pixel-wise minimum of every band over the images
    of the collection.  A pixel that is no-data in every image is no-data,
    and so is every pixel of the reduction of an empty collection (4.3, edge
    case). *)
Definition reduceMin (c : ImageCollection) : Image :=
  List.map
    (fun name =>
       (name,
        fun p => fold_right (fun s acc => omin (value (snd s) name p) acc)
                            None (scenes c)))
    (bandNames c).

End EE.

(** ** core.py

    [cloudScore] (a diagnostic statistic) and [hsvpan] (pan-sharpening) are
    not called by the pipeline and are left out. *)

(** A helper to apply an expression and linearly rescale the output.  The
    divisor [thresholds[1] - thresholds[0]] is the exact difference here;
    Python computes it in binary floating point. *)
Definition _rescale (img : EE.Image) (exp : EE.Exp) (thresholds : Q * Q)
  : Result EE.Band :=
  e <- EE.expression img exp ;;
  Ok (EE.divide (EE.subtract e (EE.constant (fst thresholds)))
                (EE.constant (snd thresholds - fst thresholds))).

(** Calculate the cloud score for the supplied L8 image. *)
Definition cloudDensity (img : EE.Image) : Result EE.Band :=
  let score := EE.constant 1.0 in
  s1 <- _rescale img (EE.Ref "B2") (0.1, 0.3) ;;
  let score := EE.min score s1 in
  s2 <- _rescale img
          (EE.Plus (EE.Plus (EE.Ref "B4") (EE.Ref "B3")) (EE.Ref "B2"))
          (0.2, 0.8) ;;
  let score := EE.min score s2 in
  s3 <- _rescale img
          (EE.Plus (EE.Plus (EE.Ref "B5") (EE.Ref "B6")) (EE.Ref "B7"))
          (0.3, 0.8) ;;
  let score := EE.min score s3 in
  s4 <- _rescale img (EE.Ref "B10") (300, 290) ;;
  let score := EE.min score s4 in
  ndsi <- EE.normalizedDifference img "B3" "B6" ;;
  s5 <- _rescale (EE.single ndsi) EE.Self (0.8, 0.6) ;;
  Ok (EE.min score s5).

(** The original image, with the pixels whose cloud score exceeds [thresh]
    masked. *)
Definition cloudMask (img : EE.Image) (cloud_scores : EE.Band) (thresh : Q)
  : EE.Image :=
  let binary := EE.lte cloud_scores thresh in
  EE.mask img binary.

Definition makeCloudFree (img : EE.Image) : Result EE.Image :=
  clouds <- cloudDensity img ;;
  Ok (cloudMask img clouds 0.5).

Definition FIRES : string := "ft:1UkooS2ir_Rx3Kbg7K2RWV9dTOCCtrjDWizZE_hL0".
Definition INIT : string * string := ("2013-03-30", "2013-09-30").
Definition POST : string * string := ("2014-05-01", "2014-09-30").

Section Pipeline.

(** The date test of the backend and the asset ['LC8_L1T_TOA']. *)
Variable within : string -> string -> Z -> bool.
Variable LC8_L1T_TOA : EE.ImageCollection.

(** The L8 cloud composite of a date range. *)
Definition createComposite (time_range : string * string) : Result EE.Image :=
  let (start, end_) := time_range in
  let collection := EE.filterDate within LC8_L1T_TOA start end_ in
  coll <- EE.map makeCloudFree collection ;;
  Ok (EE.reduceMin coll).

(** A binary image of the burn scars between two fire seasons.  The last
    line is [nbr.mask(nbr)] on the single band of [nbr]. *)
Definition generateBurnRatio (init_season post_season : string * string)
  : Result EE.Band :=
  init <- (c <- createComposite init_season ;; makeCloudFree c) ;;
  post <- (c <- createComposite post_season ;; makeCloudFree c) ;;
  nbr_init <- EE.normalizedDifference init "B6" "B4" ;;
  nbr_post <- EE.normalizedDifference post "B6" "B4" ;;
  let nbr := EE.gt (EE.subtract nbr_post nbr_init) 0.44 in
  Ok (EE.mask1 nbr nbr).

(** The vector side of the backend: the features of a fusion table,
    buffering of a geometry by a distance in meters, the union of
    geometries, and the test whether a geometry covers a pixel. *)
Variable Geometry : Type.
Variable FeatureCollection : string -> list Geometry.
Variable buffer : Geometry -> Z -> Geometry.
Variable union : list Geometry -> Geometry.
Variable covers : Geometry -> EE.Pixel -> bool.

(** The union of the buffers around the fires of a fusion table. *)
Definition loadFireBuffer (fire_location : string) (meters : Z)
  : Result Geometry :=
  let fires := FeatureCollection fire_location in
  let buffered := List.map (fun f => buffer f meters) fires in
  Ok (union buffered).

(** [raster.clip(geometry)]: pixels outside the geometry become no-data. *)
Definition clip (raster : EE.Band) (g : Geometry) : EE.Band :=
  fun p => if covers g p then raster p else None.

(** The body of the loop of [main] for an option [-m] whose argument
    [int(arg)] reads as [meters].  The parsing of the command line
    ([getopt], [int]) and its failures are not part of this definition. *)
Definition main (meters : Z) : Result EE.Band :=
  nbr <- generateBurnRatio INIT POST ;;
  fire_buffer <- loadFireBuffer FIRES meters ;;
  Ok (clip nbr fire_buffer).

End Pipeline.

(** ** Vocabulary of the specification *)

(** The five evidence signals of the cloud scorer (4.1), in the order in
    which [cloudDensity] computes them: blue, visible, infrared, thermal and
    snow index. *)
Definition signals (img : EE.Image) : Result (list EE.Band) :=
  s1 <- _rescale img (EE.Ref "B2") (0.1, 0.3) ;;
  s2 <- _rescale img
          (EE.Plus (EE.Plus (EE.Ref "B4") (EE.Ref "B3")) (EE.Ref "B2"))
          (0.2, 0.8) ;;
  s3 <- _rescale img
          (EE.Plus (EE.Plus (EE.Ref "B5") (EE.Ref "B6")) (EE.Ref "B7"))
          (0.3, 0.8) ;;
  s4 <- _rescale img (EE.Ref "B10") (300, 290) ;;
  ndsi <- EE.normalizedDifference img "B3" "B6" ;;
  s5 <- _rescale (EE.single ndsi) EE.Self (0.8, 0.6) ;;
  Ok [s1; s2; s3; s4; s5].

(** The values of a list of pixels, when all of them are defined. *)
Fixpoint all_some (l : list (option Q)) : option (list Q) :=
  match l with
  | [] => Some []
  | a :: rest =>
      match a, all_some rest with
      | Some x, Some xs => Some (x :: xs)
      | _, _ => None
      end
  end.

(** The values of a list of single-band rasters at one pixel, when all of
    them are defined there. *)
Definition values_at (l : list EE.Band) (p : EE.Pixel) : option (list Q) :=
  all_some (List.map (fun s => s p) l).

(** The fusion as the specification words it: the pixel-wise minimum of the
    signals, and nothing else. *)
Definition min_of_signals (sigs : list EE.Band) : EE.Band :=
  match sigs with
  | [] => fun _ => None
  | s :: rest => fold_left EE.min rest s
  end.

(** The sum of two pixels, defined where both are. *)
Definition oplus (a b : option Q) : option Q :=
  match a, b with
  | Some x, Some y => Some (x + y)
  | _, _ => None
  end.

(** The raw values that the five signals rescale, at one pixel: blue, the
    sum of the visible bands, the sum of the infrared bands, the thermal band
    and the snow index. *)
Definition raw_values (img : EE.Image) (p : EE.Pixel) : list (option Q) :=
  let v := fun name => EE.value img name p in
  [ v "B2";
    oplus (oplus (v "B4") (v "B3")) (v "B2");
    oplus (oplus (v "B5") (v "B6")) (v "B7");
    v "B10";
    EE.nd (v "B3") (v "B6") ].

(** The threshold pairs of the five signals. *)
Definition calibration : list (Q * Q) :=
  [ (0.1, 0.3); (0.2, 0.8); (0.3, 0.8); (300, 290); (0.8, 0.6) ].

(** Linear rescaling of one raw value against a pair of thresholds. *)
Definition rescaled (thresholds : Q * Q) (raw : option Q) : option Q :=
  match raw with
  | Some x => Some ((x - fst thresholds) / (snd thresholds - fst thresholds))
  | None => None
  end.

Fixpoint zip_with {A B C : Type} (f : A -> B -> C) (l : list A) (m : list B)
  : list C :=
  match l, m with
  | a :: l', b :: m' => f a b :: zip_with f l' m'
  | _, _ => []
  end.

(** Two pixels are the same: both no-data, or both defined with the same
    rational value. *)
Definition pixel_eq (a b : option Q) : Prop :=
  match a, b with
  | Some x, Some y => x == y
  | None, None => True
  | _, _ => False
  end.

(** Two rasters are the same: the same bands in the same order, the same
    pixels. *)
Definition image_eq (a b : EE.Image) : Prop :=
  Forall2 (fun x y => fst x = fst y /\ forall p, pixel_eq (snd x p) (snd y p))
          a b.


(** A computation whose only failure is a missing band. *)
Definition only_mismatch {A : Type} (c : Result A) : Prop :=
  forall e, c = Err e -> e = BandMismatchError.

(** The bands that [cloudDensity] and [generateBurnRatio] read. *)
Definition required_bands : list string :=
  ["B2"; "B3"; "B4"; "B5"; "B6"; "B7"; "B10"].

(** ** A small scene, used to run the definitions

    One row of pixels.  Column 0 burns between the seasons (NBR 0.10 before,
    0.60 after), column 1 sits exactly at the threshold (0.54 after), column 2
    stays below it (0.50 after), column 3 has SWIR + NIR = 0 after the fire,
    and column 4 has a slightly negative B4 reflectance before the fire. *)

Module Demo.

Definition row (vals : list Q) : EE.Band :=
  fun p =>
    if ((snd p =? 0) && (0 <=? fst p))%Z
    then nth_error vals (Z.to_nat (fst p))
    else None.

Definition before : EE.Image :=
  [ ("B2", row [0.05; 0.05; 0.05; 0.05; 0.05]);
    ("B3", row [0.05; 0.05; 0.05; 0.05; 0.05]);
    ("B4", row [0.45; 0.45; 0.45; 0.45; -0.001]);
    ("B5", row [0.30; 0.30; 0.30; 0.30; 0.30]);
    ("B6", row [0.55; 0.55; 0.55; 0.55; 0.003]);
    ("B7", row [0.10; 0.10; 0.10; 0.10; 0.10]);
    ("B10", row [295; 295; 295; 295; 295]) ].

Definition after : EE.Image :=
  [ ("B2", row [0.05; 0.05; 0.05; 0.05; 0.05]);
    ("B3", row [0.05; 0.05; 0.05; 0.05; 0.05]);
    ("B4", row [0.20; 0.23; 0.25; 0; 0.45]);
    ("B5", row [0.30; 0.30; 0.30; 0.30; 0.30]);
    ("B6", row [0.80; 0.77; 0.75; 0; 0.55]);
    ("B7", row [0.10; 0.10; 0.10; 0.10; 0.10]);
    ("B10", row [295; 295; 295; 295; 295]) ].

(** Bright and cold in every band: a cloud. *)
Definition cloudy : EE.Image :=
  (List.map (fun n => (n, row [0.4; 0.4; 0.4; 0.4; 0.4]))
            ["B2"; "B3"; "B4"; "B5"; "B6"; "B7"]
   ++ [("B10", row [280; 280; 280; 280; 280])])%list.

(** Every signal above 1. *)
Definition bright : EE.Image :=
  (List.map (fun n => (n, EE.constant 1))
            ["B2"; "B3"; "B4"; "B5"; "B6"; "B7"]
   ++ [("B10", EE.constant 200)])%list.

(** [before] with a warmer thermal band. *)
Definition warmer : EE.Image :=
  [ ("B2", row [0.05; 0.05; 0.05; 0.05; 0.05]);
    ("B3", row [0.05; 0.05; 0.05; 0.05; 0.05]);
    ("B4", row [0.45; 0.45; 0.45; 0.45; -0.001]);
    ("B5", row [0.30; 0.30; 0.30; 0.30; 0.30]);
    ("B6", row [0.55; 0.55; 0.55; 0.55; 0.003]);
    ("B7", row [0.10; 0.10; 0.10; 0.10; 0.10]);
    ("B10", row [305; 305; 305; 305; 305]) ].

(** [before] with green raised and red lowered by 0.1 in column 0: the sum
    of the visible bands is the same, the snow index is higher. *)
Definition greener : EE.Image :=
  [ ("B2", row [0.05; 0.05; 0.05; 0.05; 0.05]);
    ("B3", row [0.15; 0.05; 0.05; 0.05; 0.05]);
    ("B4", row [0.35; 0.45; 0.45; 0.45; -0.001]);
    ("B5", row [0.30; 0.30; 0.30; 0.30; 0.30]);
    ("B6", row [0.55; 0.55; 0.55; 0.55; 0.003]);
    ("B7", row [0.10; 0.10; 0.10; 0.10; 0.10]);
    ("B10", row [295; 295; 295; 295; 295]) ].

(** No thermal band. *)
Definition no_thermal : EE.Image :=
  [ ("B2", EE.constant 0.05); ("B3", EE.constant 0.05);
    ("B4", EE.constant 0.45); ("B5", EE.constant 0.30);
    ("B6", EE.constant 0.55); ("B7", EE.constant 0.10) ].

Definition LC8 : EE.ImageCollection :=
  {| EE.bandNames := required_bands;
     EE.scenes := [ (20130415, before); (20130601, cloudy);
                    (20140615, after) ]%Z |}.

(** The same scenes in another order. *)
Definition LC8_shuffled : EE.ImageCollection :=
  {| EE.bandNames := required_bands;
     EE.scenes := [ (20140615, after); (20130601, cloudy);
                    (20130415, before) ]%Z |}.

(** An ISO date as the number yyyymmdd. *)
Fixpoint digits (s : string) (acc : Z) : Z :=
  match s with
  | EmptyString => acc
  | String c rest =>
      let n := Z.of_nat (Ascii.nat_of_ascii c) in
      if ((48 <=? n) && (n <=? 57))%Z
      then digits rest (10 * acc + (n - 48))%Z
      else digits rest acc
  end.

Definition within (start end_ : string) (t : Z) : bool :=
  ((digits start 0 <=? t) && (t <? digits end_ 0))%Z.



Definition nbr_value (season : string * string) (p : EE.Pixel) : option Q :=
  match (c <- createComposite within LC8 season ;; makeCloudFree c) with
  | Ok img =>
      match EE.normalizedDifference img "B6" "B4" with
      | Ok nbr => nbr p
      | Err _ => None
      end
  | Err _ => None
  end.

(** Fires as discs (centre, radius) on the pixel grid; buffering adds to
    the radius, and a disc of negative radius covers nothing. *)
Definition Disc : Type := (EE.Pixel * Z)%type.
Definition Geometry : Type := list Disc.

Definition FeatureCollection (location : string) : list Geometry :=
  if String.eqb location FIRES then [ [((0, 0), 0)] ; [((4, 0), 0)] ]%Z
  else [].

Definition buffer (g : Geometry) (meters : Z) : Geometry :=
  List.map (fun d => (fst d, (snd d + meters)%Z)) g.

Definition union (gs : list Geometry) : Geometry := List.concat gs.

Definition covers (g : Geometry) (p : EE.Pixel) : bool :=
  existsb (fun d =>
             let dx := (fst p - fst (fst d))%Z in
             let dy := (snd p - snd (fst d))%Z in
             ((0 <=? snd d) && (dx * dx + dy * dy <=? snd d * snd d))%Z)
          g.

End Demo.

(** ** More scenes *)

Module Mixed.

(** [Demo.before] with a brighter B5. *)
Definition brighter : EE.Image :=
  [ ("B2", Demo.row [0.05; 0.05; 0.05; 0.05; 0.05]);
    ("B3", Demo.row [0.05; 0.05; 0.05; 0.05; 0.05]);
    ("B4", Demo.row [0.45; 0.45; 0.45; 0.45; -0.001]);
    ("B5", Demo.row [0.50; 0.30; 0.30; 0.30; 0.30]);
    ("B6", Demo.row [0.55; 0.55; 0.55; 0.55; 0.003]);
    ("B7", Demo.row [0.10; 0.10; 0.10; 0.10; 0.10]);
    ("B10", Demo.row [295; 295; 295; 295; 295]) ].

(** Bright but warm: the thermal signal rules out cloud. *)
Definition warm_plain : EE.Image :=
  [ ("B2", EE.constant 0.5); ("B3", EE.constant 0.5); ("B4", EE.constant 0.5);
    ("B5", EE.constant 0.5); ("B6", EE.constant 0.5); ("B7", EE.constant 0.5);
    ("B10", EE.constant 300) ].

(** Bright and cold, but snow: the snow index rules out cloud. *)
Definition cold_snow : EE.Image :=
  [ ("B2", EE.constant 0.5); ("B3", EE.constant 0.9); ("B4", EE.constant 0.5);
    ("B5", EE.constant 0.5); ("B6", EE.constant 0.1); ("B7", EE.constant 0.5);
    ("B10", EE.constant 280) ].

Definition pair : EE.ImageCollection :=
  {| EE.bandNames := required_bands;
     EE.scenes := [ (20130415, warm_plain); (20130601, cold_snow) ]%Z |}.

End Mixed.

(** ** Runs of the definitions on the scene *)

Example before_score :
  match cloudDensity Demo.before with
  | Ok s => match s (0, 0)%Z with Some v => v == -0.25 | None => False end
  | Err _ => False
  end.
Proof. vm_compute. reflexivity. Qed.

Example cloudy_score :
  match cloudDensity Demo.cloudy with
  | Ok s => match s (0, 0)%Z with Some v => v == 1 | None => False end
  | Err _ => False
  end.
Proof. vm_compute. reflexivity. Qed.

Example no_thermal_fails :
  cloudDensity Demo.no_thermal = Err BandMismatchError.
Proof. reflexivity. Qed.

(** Without bands nothing can be scored: a collection that names no bands
    makes the burn ratio fail on a missing band. *)
Example makeCloudFree_without_bands :
  makeCloudFree [] = Err BandMismatchError.
Proof. reflexivity. Qed.

Example generateBurnRatio_without_bands :
  generateBurnRatio Demo.within
    {| EE.bandNames := []; EE.scenes := [] |} INIT POST
  = Err BandMismatchError.
Proof. reflexivity. Qed.

Example cloudMask_scene :
  EE.value (cloudMask Demo.before (EE.constant 0.3) 0.5) "B6" (0, 0)%Z = Some 0.55
  /\ EE.value (cloudMask Demo.before (EE.constant 0.5) 0.5) "B6" (0, 0)%Z = Some 0.55
  /\ EE.value (cloudMask Demo.before (EE.constant 0.7) 0.5) "B6" (0, 0)%Z = None.
Proof. repeat split; reflexivity. Qed.

(** The composite of the first season leaves the cloud out, in either order
    of the collection. *)
Example composite_scene :
  match createComposite Demo.within Demo.LC8 INIT,
        createComposite Demo.within Demo.LC8_shuffled INIT with
  | Ok a, Ok b =>
      EE.value a "B6" (0, 0)%Z = Some 0.55 /\ EE.value b "B6" (0, 0)%Z = Some 0.55
  | _, _ => False
  end.
Proof. vm_compute. split; reflexivity. Qed.

Example burn_scene :
  match generateBurnRatio Demo.within Demo.LC8 INIT POST with
  | Ok r => List.map r [(0, 0); (1, 0); (2, 0); (3, 0); (4, 0); (5, 0)]%Z
            = [Some 1; None; None; None; None; None]
  | Err _ => False
  end.
Proof. vm_compute. reflexivity. Qed.

(** ** The error monad *)

Lemma bind_Ok {A B : Type} (c : Result A) (k : A -> Result B) (b : B) :
  bind c k = Ok b -> exists a, c = Ok a /\ k a = Ok b.
Proof.
  destruct c as [a | e]; simpl; intros H.
  - exists a. split; [reflexivity | exact H].
  - discriminate H.
Qed.

Lemma bind_Err {A B : Type} (c : Result A) (k : A -> Result B) (e : Error) :
  bind c k = Err e ->
  c = Err e \/ exists a, c = Ok a /\ k a = Err e.
Proof.
  destruct c as [a | e']; simpl; intros H.
  - right. exists a. split; [reflexivity | exact H].
  - left. injection H as ->. reflexivity.
Qed.

Tactic Notation "inv_bind" hyp(H) "as" ident(a) ident(Ha) :=
  apply bind_Ok in H; destruct H as [a [Ha H]].

Ltac inv_Ok H := injection H as H; subst.

(** ** Comparisons and pixel-wise operations *)

Lemma Qle_bool_true (x y : Q) : Qle_bool x y = true <-> x <= y.
Proof. apply Qle_bool_iff. Qed.

Lemma Qle_bool_false (x y : Q) : Qle_bool x y = false <-> ~ x <= y.
Proof.
  split; intros H.
  - intros Hle. apply Qle_bool_iff in Hle. congruence.
  - destruct (Qle_bool x y) eqn:E; [| reflexivity].
    apply Qle_bool_iff in E. contradiction.
Qed.

Lemma Qeq_bool_false (x y : Q) : Qeq_bool x y = false <-> ~ x == y.
Proof.
  split; intros H.
  - intros Heq. apply Qeq_bool_iff in Heq. congruence.
  - destruct (Qeq_bool x y) eqn:E; [| reflexivity].
    apply Qeq_bool_iff in E. contradiction.
Qed.

Lemma truth_nonzero (b : bool) : Qeq_bool (EE.truth b) 0 = negb b.
Proof. destruct b; reflexivity. Qed.

(** The binary image of [lte] lets through the pixels whose score is
    defined and at most the threshold. *)
Lemma mask1_lte (b s : EE.Band) (t : Q) (p : EE.Pixel) :
  EE.mask1 b (EE.lte s t) p =
  match s p with
  | Some x => if Qle_bool x t then b p else None
  | None => None
  end.
Proof.
  unfold EE.mask1, EE.lte, EE.lift1.
  destruct (s p) as [x |]; [| reflexivity].
  rewrite truth_nonzero. destruct (Qle_bool x t); reflexivity.
Qed.

(** ** Cloud masking *)

(** C3.  For every raster, cloud-score raster and threshold [thresh],
    [cloudMask] returns the bands of the raster under their names, and in
    every band and at every pixel: when the score is at most [thresh] the
    output pixel is the source pixel; when the score is above [thresh] (or
    itself no-data) the output pixel is no-data; and a pixel that carries a
    value in the output carries the same value in the source and has a score
    of at most [thresh]. *)
Theorem cloudMask_keeps_iff_score_lte :
  forall (img : EE.Image) (cloud_scores : EE.Band) (thresh : Q),
    Forall2
      (fun src out =>
         fst out = fst src /\
         forall p : EE.Pixel,
           (forall s, cloud_scores p = Some s -> s <= thresh ->
                      snd out p = snd src p) /\
           (forall s, cloud_scores p = Some s -> ~ s <= thresh ->
                      snd out p = None) /\
           (cloud_scores p = None -> snd out p = None) /\
           (forall v, snd out p = Some v ->
                      snd src p = Some v /\
                      exists s, cloud_scores p = Some s /\ s <= thresh))
      img (cloudMask img cloud_scores thresh).
Proof.
  intros img cs t. unfold cloudMask, EE.mask.
  induction img as [| [n b] rest IH]; simpl; constructor; [| exact IH].
  simpl. split; [reflexivity |]. intros p. rewrite mask1_lte.
  destruct (cs p) as [x |].
  - destruct (Qle_bool x t) eqn:E.
    + apply Qle_bool_true in E. repeat split; try discriminate.
      * intros s Hs Hle. inv_Ok Hs. contradiction.
      * exact H.
      * exists x. split; [reflexivity | exact E].
    + apply Qle_bool_false in E. repeat split; try discriminate.
      intros s Hs Hle. inv_Ok Hs. contradiction.
  - repeat split; try discriminate.
Qed.

(** ** Cloud scoring, pixel by pixel *)

Lemma select_value (img : EE.Image) (name : string) (b : EE.Band) :
  EE.select img name = Ok b -> forall p, b p = EE.value img name p.
Proof.
  unfold EE.select, EE.value. destruct (EE.lookup name img); intros H p.
  - inv_Ok H. reflexivity.
  - discriminate H.
Qed.

Lemma select_Ok_iff (img : EE.Image) (name : string) :
  (exists b, EE.select img name = Ok b) <-> In name (List.map fst img).
Proof.
  unfold EE.select. induction img as [| [n b] rest IH]; simpl.
  - split; [intros [b H]; discriminate H | intros []].
  - destruct (String.eqb_spec name n) as [-> | Hne].
    + split; [intros _; left; reflexivity | intros _; eexists; reflexivity].
    + rewrite IH. split; [intros H; right; exact H |].
      intros [H | H]; [congruence | exact H].
Qed.

Lemma rescale_pixel (img : EE.Image) (exp : EE.Exp) (th : Q * Q) (s : EE.Band) :
  _rescale img exp th = Ok s ->
  exists raw, EE.expression img exp = Ok raw /\
              forall p, s p = rescaled th (raw p).
Proof.
  unfold _rescale. intros H. inv_bind H as raw Hraw. inv_Ok H.
  exists raw. split; [assumption |]. intros p.
  unfold EE.divide, EE.subtract, EE.constant, EE.lift2, rescaled.
  destruct (raw p); reflexivity.
Qed.

Lemma plus3_value (img : EE.Image) (a b c : string) (raw : EE.Band) :
  EE.expression img (EE.Plus (EE.Plus (EE.Ref a) (EE.Ref b)) (EE.Ref c)) = Ok raw ->
  forall p, raw p = oplus (oplus (EE.value img a p) (EE.value img b p))
                          (EE.value img c p).
Proof.
  simpl. intros H p. inv_bind H as ab Hab. inv_bind Hab as x Hx.
  inv_bind Hab as y Hy. inv_Ok Hab. inv_bind H as z Hz. inv_Ok H.
  unfold EE.add, EE.lift2, oplus.
  rewrite (select_value _ _ _ Hx), (select_value _ _ _ Hy),
    (select_value _ _ _ Hz).
  reflexivity.
Qed.

Lemma normalizedDifference_value (img : EE.Image) (a b : string) (r : EE.Band) :
  EE.normalizedDifference img a b = Ok r ->
  forall p, r p = EE.nd (EE.value img a p) (EE.value img b p).
Proof.
  unfold EE.normalizedDifference. intros H p.
  inv_bind H as x Hx. inv_bind H as y Hy. inv_Ok H.
  rewrite (select_value _ _ _ Hx), (select_value _ _ _ Hy). reflexivity.
Qed.

(** The five signals are the rescaled raw values. *)
Lemma signals_pixel (img : EE.Image) (sigs : list EE.Band) :
  signals img = Ok sigs ->
  forall p, List.map (fun s => s p) sigs
            = zip_with rescaled calibration (raw_values img p).
Proof.
  unfold signals. intros H p.
  inv_bind H as s1 H1. inv_bind H as s2 H2. inv_bind H as s3 H3.
  inv_bind H as s4 H4. inv_bind H as ndsi Hn. inv_bind H as s5 H5.
  inv_Ok H.
  apply rescale_pixel in H1, H2, H3, H4, H5.
  destruct H1 as [w1 [E1 P1]]. destruct H2 as [w2 [E2 P2]].
  destruct H3 as [w3 [E3 P3]]. destruct H4 as [w4 [E4 P4]].
  destruct H5 as [w5 [E5 P5]].
  simpl in E1, E4, E5. inv_Ok E5.
  simpl. rewrite P1, P2, P3, P4, P5.
  rewrite (select_value _ _ _ E1), (select_value _ _ _ E4).
  rewrite (plus3_value _ _ _ _ _ E2), (plus3_value _ _ _ _ _ E3).
  rewrite (normalizedDifference_value _ _ _ _ Hn).
  reflexivity.
Qed.

Lemma signals_length (img : EE.Image) (sigs : list EE.Band) :
  signals img = Ok sigs -> List.length sigs = 5%nat.
Proof.
  unfold signals. intros H.
  inv_bind H as s1 H1. inv_bind H as s2 H2. inv_bind H as s3 H3.
  inv_bind H as s4 H4. inv_bind H as ndsi Hn. inv_bind H as s5 H5.
  inv_Ok H. reflexivity.
Qed.

(** [cloudDensity] folds the signals into the constant image 1.0. *)
Lemma cloudDensity_signals (img : EE.Image) :
  cloudDensity img =
  (sigs <- signals img ;; Ok (fold_left EE.min sigs (EE.constant 1.0))).
Proof.
  unfold cloudDensity, signals.
  repeat match goal with
         | |- context [bind ?c _] =>
             destruct c; simpl; try reflexivity
         end.
Qed.

(** ** Minimum of a list of rationals *)

Lemma fold_Qmin_le_seed (vs : list Q) :
  forall a, fold_left Qmin vs a <= a.
Proof.
  induction vs as [| v vs IH]; intros a; simpl.
  - apply Qle_refl.
  - eapply Qle_trans; [apply IH | apply Q.le_min_l].
Qed.

Lemma fold_Qmin_le_each (vs : list Q) :
  forall a, Forall (Qle (fold_left Qmin vs a)) vs.
Proof.
  induction vs as [| v vs IH]; intros a; simpl; constructor.
  - eapply Qle_trans; [apply fold_Qmin_le_seed | apply Q.le_min_r].
  - apply IH.
Qed.

Lemma fold_Qmin_glb (vs : list Q) :
  forall a z, z <= a -> Forall (Qle z) vs -> z <= fold_left Qmin vs a.
Proof.
  induction vs as [| v vs IH]; intros a z Ha Hvs; simpl.
  - exact Ha.
  - inversion Hvs; subst. apply IH; [apply Q.min_glb |]; assumption.
Qed.

Lemma fold_Qmin_seed (vs : list Q) (v a : Q) :
  fold_left Qmin (v :: vs) a == Qmin a (fold_left Qmin vs v).
Proof.
  apply Qle_antisym.
  - apply Q.min_glb.
    + apply fold_Qmin_le_seed.
    + apply fold_Qmin_glb.
      * pose proof (fold_Qmin_le_each (v :: vs) a) as H.
        inversion H; assumption.
      * pose proof (fold_Qmin_le_each (v :: vs) a) as H.
        inversion H; assumption.
  - apply fold_Qmin_glb.
    + apply Q.le_min_l.
    + constructor.
      * eapply Qle_trans; [apply Q.le_min_r | apply fold_Qmin_le_seed].
      * eapply Forall_impl; [| apply (fold_Qmin_le_each vs v)].
        intros x Hx. eapply Qle_trans; [apply Q.le_min_r | exact Hx].
Qed.

Lemma fold_min_values (l : list EE.Band) :
  forall (acc : EE.Band) (p : EE.Pixel),
    fold_left EE.min l acc p =
    match acc p, values_at l p with
    | Some a, Some vs => Some (fold_left Qmin vs a)
    | _, _ => None
    end.
Proof.
  unfold values_at.
  induction l as [| s l IH]; intros acc p; simpl.
  - destruct (acc p); reflexivity.
  - rewrite IH. unfold EE.min, EE.lift2.
    destruct (acc p) as [a |], (s p) as [x |];
      destruct (all_some (List.map (fun s0 => s0 p) l)); reflexivity.
Qed.

Lemma all_some_Forall2 (l : list (option Q)) :
  forall vs, all_some l = Some vs -> Forall2 (fun a x => a = Some x) l vs.
Proof.
  induction l as [| a l IH]; simpl; intros vs H.
  - inv_Ok H. constructor.
  - destruct a as [x |]; [| discriminate H].
    destruct (all_some l) as [xs |]; [| discriminate H].
    inv_Ok H. constructor; [reflexivity | apply IH; reflexivity].
Qed.

Lemma values_at_each (l : list EE.Band) (p : EE.Pixel) (vs : list Q) (z : Q) :
  values_at l p = Some vs -> Forall (Qle z) vs ->
  Forall (fun s => exists x, s p = Some x /\ z <= x) l.
Proof.
  unfold values_at. intros H. apply all_some_Forall2 in H.
  revert vs H. induction l as [| s l IH]; simpl; intros vs H Hz.
  - constructor.
  - inversion H; subst. inversion Hz; subst. constructor.
    + eexists. split; eassumption.
    + eapply IH; eassumption.
Qed.

(** ** Linear rescaling *)

Lemma rescale_ascending (lo hi x y : Q) :
  lo < hi -> x <= y -> (x - lo) / (hi - lo) <= (y - lo) / (hi - lo).
Proof.
  intros Hlt Hxy. unfold Qdiv. apply Qmult_le_compat_r.
  - lra.
  - apply Qlt_le_weak, Qinv_lt_0_compat. lra.
Qed.

Lemma rescale_descending (high low x y : Q) :
  low < high -> x <= y -> (y - high) / (low - high) <= (x - high) / (low - high).
Proof.
  intros Hlt Hxy.
  assert (E : forall z, (z - high) / (low - high) == (high - z) / (high - low)).
  { intros z. field. split; lra. }
  rewrite (E x), (E y). unfold Qdiv. apply Qmult_le_compat_r.
  - lra.
  - apply Qlt_le_weak, Qinv_lt_0_compat. lra.
Qed.

Lemma cloudDensity_Ok (img : EE.Image) (score : EE.Band) :
  cloudDensity img = Ok score ->
  exists sigs, signals img = Ok sigs /\
    forall p, score p =
              match all_some (zip_with rescaled calibration (raw_values img p)) with
              | Some vs => Some (fold_left Qmin vs 1.0)
              | None => None
              end.
Proof.
  rewrite cloudDensity_signals. intros H. inv_bind H as sigs Hs. inv_Ok H.
  exists sigs. split; [exact Hs |]. intros p.
  rewrite fold_min_values. unfold values_at.
  rewrite (signals_pixel _ _ Hs). reflexivity.
Qed.

(** The score is defined exactly where the seven bands are and the snow
    index has a non-zero denominator. *)
Lemma raw_values_defined (img : EE.Image) (p : EE.Pixel) :
  all_some (zip_with rescaled calibration (raw_values img p)) <> None <->
  (forall n, In n required_bands -> EE.value img n p <> None) /\
  EE.nd (EE.value img "B3" p) (EE.value img "B6" p) <> None.
Proof.
  unfold raw_values. simpl.
  destruct (EE.value img "B2" p) eqn:E2, (EE.value img "B3" p) eqn:E3,
    (EE.value img "B4" p) eqn:E4, (EE.value img "B5" p) eqn:E5,
    (EE.value img "B6" p) eqn:E6, (EE.value img "B7" p) eqn:E7,
    (EE.value img "B10" p) eqn:E10; simpl;
    try (split; [intros H; exfalso; apply H; reflexivity |];
         intros [H _]; exfalso;
         match goal with
         | E : EE.value img ?n p = None |- _ =>
             apply (H n); [| exact E]; unfold required_bands;
             repeat first [left; reflexivity | right]
         end).
  destruct (Qeq_bool (q0 + q3) 0); simpl.
  - split; [intros H; exfalso; apply H; reflexivity |].
    intros [_ H]; exfalso; apply H; reflexivity.
  - split; [| discriminate]. intros _. split; [| discriminate].
    unfold required_bands.
    intros n [<- | [<- | [<- | [<- | [<- | [<- | [<- | []]]]]]]]; congruence.
Qed.

(** ** Claims on the cloud score *)

(** C6 (amended).  For every raster on which the five signals evaluate,
    [cloudDensity] returns a score which at every pixel is the minimum of the
    constant 1 and the five rescaled signals: where the minimum [m] of the
    five signals is defined the score is [min 1 m] and is at most every one
    of the five signals, and where one of the signals is no-data the score is
    no-data.  The rescaled blue signal is non-decreasing in the value of
    band B2. *)
Theorem cloudDensity_min_of_one_and_signals :
  (forall (img : EE.Image) (sigs : list EE.Band),
      signals img = Ok sigs ->
      List.length sigs = 5%nat /\
      exists score,
        cloudDensity img = Ok score /\
        forall p : EE.Pixel,
          match min_of_signals sigs p with
          | Some m =>
              exists v, score p = Some v /\ v == Qmin 1 m /\
                        Forall (fun s => exists x, s p = Some x /\ v <= x) sigs
          | None => score p = None
          end)
  /\
  (forall (img img' : EE.Image) (s s' : EE.Band) (p : EE.Pixel) (b b' : Q),
      _rescale img (EE.Ref "B2") (0.1, 0.3) = Ok s ->
      _rescale img' (EE.Ref "B2") (0.1, 0.3) = Ok s' ->
      EE.value img "B2" p = Some b ->
      EE.value img' "B2" p = Some b' ->
      b <= b' ->
      exists v v', s p = Some v /\ s' p = Some v' /\ v <= v').
Proof.
  split.
  - intros img sigs Hs. split; [eapply signals_length; exact Hs |].
    rewrite cloudDensity_signals, Hs. simpl. eexists. split; [reflexivity |].
    intros p. pose proof (signals_length _ _ Hs) as Hlen.
    destruct sigs as [| s rest]; [discriminate Hlen |].
    unfold min_of_signals. rewrite !fold_min_values.
    unfold values_at, EE.constant. simpl.
    destruct (s p) as [a |] eqn:Ea; [| reflexivity].
    destruct (all_some (List.map (fun s0 => s0 p) rest)) as [vs |] eqn:Er;
      [| reflexivity].
    eexists. split; [reflexivity |]. split.
    + change (fold_left Qmin vs (Qmin 1.0 a)) with (fold_left Qmin (a :: vs) 1.0).
      rewrite fold_Qmin_seed. apply Q.min_compat; reflexivity.
    + apply (values_at_each (s :: rest) p (a :: vs)).
      * unfold values_at. simpl. rewrite Ea, Er. reflexivity.
      * apply (fold_Qmin_le_each (a :: vs) 1.0).
  - intros img img' s s' p b b' Hs Hs' Hb Hb' Hle.
    apply rescale_pixel in Hs, Hs'.
    destruct Hs as [raw [Er Ps]]. destruct Hs' as [raw' [Er' Ps']].
    simpl in Er, Er'.
    rewrite Ps, Ps', (select_value _ _ _ Er), (select_value _ _ _ Er'), Hb, Hb'.
    simpl. eexists. eexists. split; [reflexivity |]. split; [reflexivity |].
    apply rescale_ascending; [reflexivity | exact Hle].
Qed.

(** On a raster whose five signals all exceed 1 the score is 1 while the
    minimum of the five signals is 4. *)
Lemma bright_score_is_not_min_of_signals :
  match cloudDensity Demo.bright, signals Demo.bright with
  | Ok score, Ok sigs =>
      match score (0, 0)%Z, min_of_signals sigs (0, 0)%Z with
      | Some v, Some m => v == 1 /\ m == 4 /\ ~ v == m
      | _, _ => False
      end
  | _, _ => False
  end.
Proof. vm_compute. repeat split; intros H; discriminate H. Qed.

Lemma cloudDensity_min_of_one_and_signals_witness :
  exists sigs score,
    signals Demo.before = Ok sigs /\
    cloudDensity Demo.before = Ok score /\
    match min_of_signals sigs (0, 0)%Z with
    | Some m =>
        exists v, score (0, 0)%Z = Some v /\ v == Qmin 1 m /\
                  Forall (fun s => exists x, s (0, 0)%Z = Some x /\ v <= x) sigs
    | None => score (0, 0)%Z = None
    end.
Proof.
  eexists. 
  destruct (proj1 cloudDensity_min_of_one_and_signals Demo.before _ eq_refl)
    as [_ [score [Hscore Hp]]].
  exists score. split; [reflexivity |]. split; [exact Hscore |].
  exact (Hp (0, 0)%Z).
Defined.

(** C7 (amended).  For every raster on which [cloudDensity] evaluates, the
    score is defined at a pixel exactly when the seven bands it reads are
    defined there and the snow index has a non-zero denominator; a defined
    score is at most 1, and it is at least 0 exactly when every one of the
    five signals is at least 0 at that pixel. *)
Theorem cloudDensity_score_at_most_one :
  forall (img : EE.Image) (score : EE.Band),
    cloudDensity img = Ok score ->
    forall p : EE.Pixel,
      (score p <> None <->
       (forall n, In n required_bands -> EE.value img n p <> None) /\
       EE.nd (EE.value img "B3" p) (EE.value img "B6" p) <> None)
      /\
      forall v, score p = Some v ->
        v <= 1 /\
        exists sigs vs,
          signals img = Ok sigs /\ values_at sigs p = Some vs /\
          (0 <= v <-> Forall (Qle 0) vs).
Proof.
  intros img score H p.
  destruct (cloudDensity_Ok _ _ H) as [sigs [Hs Hp]].
  split.
  - rewrite <- raw_values_defined, Hp.
    destruct (all_some (zip_with rescaled calibration (raw_values img p)));
      split; intros H0; congruence.
  - intros v Hv. rewrite Hp in Hv.
    destruct (all_some (zip_with rescaled calibration (raw_values img p)))
      as [vs |] eqn:E; [| discriminate Hv].
    inv_Ok Hv. split.
    + apply (Qle_trans _ 1.0); [apply fold_Qmin_le_seed | lra].
    + exists sigs, vs. split; [exact Hs |]. split.
      * unfold values_at. rewrite (signals_pixel _ _ Hs). exact E.
      * split.
        -- intros H0. eapply Forall_impl; [| apply (fold_Qmin_le_each vs 1.0)].
           intros x Hx. eapply Qle_trans; eassumption.
        -- intros H0. apply fold_Qmin_glb; [lra | exact H0].
Qed.

(** On the clear, dark pixel of the scene the blue signal is negative, and so
    is the score. *)
Lemma dark_pixel_score_is_negative :
  match cloudDensity Demo.before with
  | Ok score =>
      match score (0, 0)%Z with
      | Some v => v == -0.25 /\ ~ (0 <= v /\ v <= 1)
      | None => False
      end
  | Err _ => False
  end.
Proof.
  vm_compute. split; [reflexivity |]. intros [H _]. apply H. reflexivity.
Qed.

Lemma cloudDensity_score_at_most_one_witness :
  exists score,
    cloudDensity Demo.before = Ok score /\
    score (0, 0)%Z <> None /\
    forall v, score (0, 0)%Z = Some v -> v <= 1.
Proof.
  eexists. split; [reflexivity |].
  pose proof (cloudDensity_score_at_most_one Demo.before _ eq_refl (0, 0)%Z)
    as [Hdef Hval].
  split.
  - apply Hdef. vm_compute. split; [| discriminate].
    intros n [<- | [<- | [<- | [<- | [<- | [<- | [<- | []]]]]]]]; discriminate.
  - intros v Hv. exact (proj1 (Hval v Hv)).
Defined.

(** C8.  Rescaling against a pair of thresholds gives, at every pixel where
    the raw value is defined, [(raw - high) / (low - high)], and no-data
    elsewhere.  For the two descending pairs, thermal [300, 290] and snow
    index [0.8, 0.6], the signal is non-increasing in the raw value, and so
    is the combined cloud score: between two rasters whose other four raw
    values agree at a pixel, the one with the larger thermal value (index 3)
    or the larger snow index (index 4) has the smaller or equal score. *)
Theorem descending_thresholds_invert :
  (forall (img : EE.Image) (exp : EE.Exp) (high low : Q) (s : EE.Band),
      _rescale img exp (high, low) = Ok s ->
      exists raw,
        EE.expression img exp = Ok raw /\
        forall p : EE.Pixel,
          match raw p with
          | Some x => exists v, s p = Some v /\ v == (x - high) / (low - high)
          | None => s p = None
          end)
  /\
  (forall (high low : Q),
      In (high, low) [(300, 290); (0.8, 0.6)] ->
      forall (img img' : EE.Image) (exp exp' : EE.Exp) (s s' raw raw' : EE.Band)
             (p : EE.Pixel) (x y : Q),
        _rescale img exp (high, low) = Ok s ->
        _rescale img' exp' (high, low) = Ok s' ->
        EE.expression img exp = Ok raw ->
        EE.expression img' exp' = Ok raw' ->
        raw p = Some x -> raw' p = Some y -> x <= y ->
        exists vx vy, s p = Some vx /\ s' p = Some vy /\ vy <= vx)
  /\
  (forall (i : nat), i = 3%nat \/ i = 4%nat ->
      forall (img img' : EE.Image) (score score' : EE.Band) (p : EE.Pixel)
             (x y : Q),
        cloudDensity img = Ok score ->
        cloudDensity img' = Ok score' ->
        (forall j, j <> i ->
                   nth_error (raw_values img p) j = nth_error (raw_values img' p) j) ->
        nth_error (raw_values img p) i = Some (Some x) ->
        nth_error (raw_values img' p) i = Some (Some y) ->
        x <= y ->
        forall v, score p = Some v ->
                  exists v', score' p = Some v' /\ v' <= v).
Proof.
  split; [| split].
  - intros img exp high low s H.
    destruct (rescale_pixel _ _ _ _ H) as [raw [Er Ps]].
    exists raw. split; [exact Er |]. intros p. rewrite Ps.
    destruct (raw p) as [x |]; simpl; [| reflexivity].
    eexists. split; reflexivity.
  - intros high low Hin img img' exp exp' s s' raw raw' p x y
           Hs Hs' Er Er' Hx Hy Hle.
    destruct (rescale_pixel _ _ _ _ Hs) as [w [Ew Ps]].
    destruct (rescale_pixel _ _ _ _ Hs') as [w' [Ew' Ps']].
    rewrite Er in Ew. inv_Ok Ew. rewrite Er' in Ew'. inv_Ok Ew'.
    rewrite Ps, Ps', Hx, Hy. simpl.
    eexists. eexists. split; [reflexivity |]. split; [reflexivity |].
    apply rescale_descending; [| exact Hle].
    destruct Hin as [E | [E | []]]; inv_Ok E; reflexivity.
  - intros i Hi img img' score score' p x y Hc Hc' Hsame Hx Hy Hle v Hv.
    destruct (cloudDensity_Ok _ _ Hc) as [sigs [_ Hp]].
    destruct (cloudDensity_Ok _ _ Hc') as [sigs' [_ Hp']].
    rewrite Hp in Hv. rewrite Hp'. clear Hp Hp' Hc Hc'.
    assert (R : exists a0 a1 a2 a3 a4, raw_values img p = [a0; a1; a2; a3; a4])
      by (unfold raw_values; repeat eexists).
    assert (R' : exists b0 b1 b2 b3 b4, raw_values img' p = [b0; b1; b2; b3; b4])
      by (unfold raw_values; repeat eexists).
    destruct R as [a0 [a1 [a2 [a3 [a4 R]]]]].
    destruct R' as [b0 [b1 [b2 [b3 [b4 R']]]]].
    rewrite R in *. rewrite R' in *.
    pose proof (Hsame 0%nat) as S0. pose proof (Hsame 1%nat) as S1.
    pose proof (Hsame 2%nat) as S2. pose proof (Hsame 3%nat) as S3.
    pose proof (Hsame 4%nat) as S4. simpl in S0, S1, S2, S3, S4.
    destruct Hi as [-> | ->]; simpl in Hx, Hy; inv_Ok Hx; inv_Ok Hy.
    + specialize (S0 ltac:(discriminate)). specialize (S1 ltac:(discriminate)).
      specialize (S2 ltac:(discriminate)). specialize (S4 ltac:(discriminate)).
      inv_Ok S0. inv_Ok S1. inv_Ok S2. inv_Ok S4.
      simpl in *. destruct b0, b1, b2, b4; simpl in *; try discriminate Hv.
      inv_Ok Hv. eexists. split; [reflexivity |].
      repeat apply Q.min_le_compat; try apply Qle_refl.
      apply rescale_descending; [reflexivity | exact Hle].
    + specialize (S0 ltac:(discriminate)). specialize (S1 ltac:(discriminate)).
      specialize (S2 ltac:(discriminate)). specialize (S3 ltac:(discriminate)).
      inv_Ok S0. inv_Ok S1. inv_Ok S2. inv_Ok S3.
      simpl in *. destruct b0, b1, b2, b3; simpl in *; try discriminate Hv.
      inv_Ok Hv. eexists. split; [reflexivity |].
      repeat apply Q.min_le_compat; try apply Qle_refl.
      apply rescale_descending; [reflexivity | exact Hle].
Qed.

Lemma descending_thresholds_invert_witness :
  exists score warm green,
    cloudDensity Demo.before = Ok score /\
    cloudDensity Demo.warmer = Ok warm /\
    cloudDensity Demo.greener = Ok green /\
    (forall v, score (0, 0)%Z = Some v ->
               exists v', warm (0, 0)%Z = Some v' /\ v' <= v) /\
    (forall v, score (0, 0)%Z = Some v ->
               exists v', green (0, 0)%Z = Some v' /\ v' <= v).
Proof.
  eexists. eexists. eexists.
  split; [reflexivity |]. split; [reflexivity |]. split; [reflexivity |].
  destruct descending_thresholds_invert as [_ [_ H]].
  split.
  - eapply (H 3%nat (or_introl eq_refl) Demo.before Demo.warmer).
    + reflexivity.
    + reflexivity.
    + intros [| [| [| [| [| j]]]]] Hj; try reflexivity.
      exfalso. apply Hj. reflexivity.
    + reflexivity.
    + reflexivity.
    + vm_compute. discriminate.
  - eapply (H 4%nat (or_intror eq_refl) Demo.before Demo.greener).
    + reflexivity.
    + reflexivity.
    + intros [| [| [| [| [| j]]]]] Hj; try reflexivity.
      exfalso. apply Hj. reflexivity.
    + reflexivity.
    + reflexivity.
    + vm_compute. discriminate.
Defined.

(** ** The normalized difference *)





(** ** The burn ratio *)

Lemma burn_pixel (nbr_post nbr_init : EE.Band) (p : EE.Pixel) :
  let nbr := EE.gt (EE.subtract nbr_post nbr_init) 0.44 in
  EE.mask1 nbr nbr p =
  match nbr_post p, nbr_init p with
  | Some x, Some y => if Qle_bool (x - y) 0.44 then None else Some 1
  | _, _ => None
  end.
Proof.
  unfold EE.mask1, EE.gt, EE.subtract, EE.lift1, EE.lift2. simpl.
  destruct (nbr_post p) as [x |]; [| reflexivity].
  destruct (nbr_init p) as [y |]; [| reflexivity].
  rewrite truth_nonzero. destruct (Qle_bool (x - y) 0.44); reflexivity.
Qed.

Lemma generateBurnRatio_Ok
    (within : string -> string -> Z -> bool) (coll : EE.ImageCollection)
    (init_season post_season : string * string) (burn : EE.Band) :
  generateBurnRatio within coll init_season post_season = Ok burn ->
  exists init post nbr_init nbr_post,
    (c <- createComposite within coll init_season ;; makeCloudFree c) = Ok init /\
    (c <- createComposite within coll post_season ;; makeCloudFree c) = Ok post /\
    EE.normalizedDifference init "B6" "B4" = Ok nbr_init /\
    EE.normalizedDifference post "B6" "B4" = Ok nbr_post /\
    forall p, burn p =
              match nbr_post p, nbr_init p with
              | Some x, Some y => if Qle_bool (x - y) 0.44 then None else Some 1
              | _, _ => None
              end.
Proof.
  unfold generateBurnRatio. intros H.
  inv_bind H as init Hi. inv_bind H as post Hp.
  inv_bind H as nbr_init Hni. inv_bind H as nbr_post Hnp. inv_Ok H.
  exists init, post, nbr_init, nbr_post.
  repeat (split; [assumption |]).
  intros p. apply burn_pixel.
Qed.



(** C2.  When [generateBurnRatio] evaluates, with [nbr_init] and [nbr_post]
    the burn ratios of the two cloud-free composites: at every pixel where
    both are defined, the returned pixel is burned (carries a value) iff
    nbr_post - nbr_init > 0.44, and is no-data when the difference is at most
    0.44, in particular when it equals 0.44; where either ratio is no-data
    the returned pixel is no-data. *)
Theorem generateBurnRatio_strict_threshold :
  forall (within : string -> string -> Z -> bool) (coll : EE.ImageCollection)
         (init_season post_season : string * string) (burn : EE.Band),
    generateBurnRatio within coll init_season post_season = Ok burn ->
    exists init post nbr_init nbr_post,
      (c <- createComposite within coll init_season ;; makeCloudFree c) = Ok init /\
      (c <- createComposite within coll post_season ;; makeCloudFree c) = Ok post /\
      EE.normalizedDifference init "B6" "B4" = Ok nbr_init /\
      EE.normalizedDifference post "B6" "B4" = Ok nbr_post /\
      forall p : EE.Pixel,
        match nbr_post p, nbr_init p with
        | Some x, Some y =>
            (burn p <> None <-> 0.44 < x - y) /\
            (0.44 < x - y -> burn p = Some 1) /\
            (x - y <= 0.44 -> burn p = None) /\
            (x - y == 0.44 -> burn p = None)
        | _, _ => burn p = None
        end.
Proof.
  intros within coll init_season post_season burn H.
  destruct (generateBurnRatio_Ok _ _ _ _ _ H)
    as (init & post & nbr_init & nbr_post & Hi & Hp & Hni & Hnp & Hb).
  exists init, post, nbr_init, nbr_post.
  repeat (split; [assumption |]).
  intros p. rewrite Hb.
  destruct (nbr_post p) as [x |]; [| reflexivity].
  destruct (nbr_init p) as [y |]; [| reflexivity].
  destruct (Qle_bool (x - y) 0.44) eqn:E.
  - apply Qle_bool_true in E. repeat split; try reflexivity.
    + intros H0. exfalso. apply H0. reflexivity.
    + intros H0. lra.
    + intros H0. lra.
  - apply Qle_bool_false in E. repeat split; try discriminate; try reflexivity.
    + intros _. lra.
    + intros H0. contradiction.
    + intros H0. exfalso. apply E. lra.
Qed.

Lemma generateBurnRatio_strict_threshold_witness :
  match generateBurnRatio Demo.within Demo.LC8 INIT POST with
  | Ok burn =>
      burn (0, 0)%Z = Some 1 /\ burn (1, 0)%Z = None /\ burn (2, 0)%Z = None
  | Err _ => False
  end.
Proof.
  assert (Hrun : match generateBurnRatio Demo.within Demo.LC8 INIT POST with
                 | Ok _ => True
                 | Err _ => False
                 end) by (vm_compute; exact I).
  destruct (generateBurnRatio Demo.within Demo.LC8 INIT POST) as [burn | e] eqn:E;
    [clear Hrun | exact Hrun].
  destruct (generateBurnRatio_strict_threshold
              Demo.within Demo.LC8 INIT POST burn E)
    as (init & post & nbr_init & nbr_post & Hi & Hp & Hni & Hnp & H).
  assert (Ei : forall p, Demo.nbr_value INIT p = nbr_init p).
  { intros p. unfold Demo.nbr_value. rewrite Hi, Hni. reflexivity. }
  assert (Ep : forall p, Demo.nbr_value POST p = nbr_post p).
  { intros p. unfold Demo.nbr_value. rewrite Hp, Hnp. reflexivity. }
  split; [| split].
  - pose proof (H (0, 0)%Z) as H0. rewrite <- Ei, <- Ep in H0.
    vm_compute in H0. destruct H0 as (_ & Hburned & _).
    apply Hburned. reflexivity.
  - pose proof (H (1, 0)%Z) as H0. rewrite <- Ei, <- Ep in H0.
    vm_compute in H0. destruct H0 as (_ & _ & _ & Hboundary).
    apply Hboundary. reflexivity.
  - pose proof (H (2, 0)%Z) as H0. rewrite <- Ei, <- Ep in H0.
    vm_compute in H0. destruct H0 as (_ & _ & Hbelow & _).
    apply Hbelow. discriminate.
Defined.

(** C10.  When [generateBurnRatio] evaluates, every pixel of the returned
    raster that is defined carries the value 1, and the defined pixels are
    exactly those where both burn ratios are defined and differ by more
    than 0.44. *)
Theorem generateBurnRatio_defined_is_one :
  forall (within : string -> string -> Z -> bool) (coll : EE.ImageCollection)
         (init_season post_season : string * string) (burn : EE.Band),
    generateBurnRatio within coll init_season post_season = Ok burn ->
    exists init post nbr_init nbr_post,
      (c <- createComposite within coll init_season ;; makeCloudFree c) = Ok init /\
      (c <- createComposite within coll post_season ;; makeCloudFree c) = Ok post /\
      EE.normalizedDifference init "B6" "B4" = Ok nbr_init /\
      EE.normalizedDifference post "B6" "B4" = Ok nbr_post /\
      forall p : EE.Pixel,
        (forall v, burn p = Some v -> v = 1) /\
        (burn p <> None <->
         exists x y, nbr_post p = Some x /\ nbr_init p = Some y /\ 0.44 < x - y).
Proof.
  intros within coll init_season post_season burn H.
  destruct (generateBurnRatio_Ok _ _ _ _ _ H)
    as (init & post & nbr_init & nbr_post & Hi & Hp & Hni & Hnp & Hb).
  exists init, post, nbr_init, nbr_post.
  repeat (split; [assumption |]).
  intros p. rewrite Hb.
  destruct (nbr_post p) as [x |].
  - destruct (nbr_init p) as [y |].
    + destruct (Qle_bool (x - y) 0.44) eqn:E.
      * apply Qle_bool_true in E. split; [discriminate |].
        split; [intros H0; exfalso; apply H0; reflexivity |].
        intros (x' & y' & Ex & Ey & Hlt). inv_Ok Ex. inv_Ok Ey. lra.
      * apply Qle_bool_false in E. split.
        -- intros v Hv. inv_Ok Hv. reflexivity.
        -- split; [| discriminate]. intros _. exists x, y.
           repeat split. lra.
    + split; [discriminate |].
      split; [intros H0; exfalso; apply H0; reflexivity |].
      intros (x' & y' & _ & Ey & _). discriminate Ey.
  - split; [discriminate |].
    split; [intros H0; exfalso; apply H0; reflexivity |].
    intros (x' & y' & Ex & _). discriminate Ex.
Qed.

Lemma generateBurnRatio_defined_is_one_witness :
  match generateBurnRatio Demo.within Demo.LC8 INIT POST with
  | Ok burn =>
      burn (0, 0)%Z <> None /\ forall v, burn (0, 0)%Z = Some v -> v = 1
  | Err _ => False
  end.
Proof.
  assert (Hrun : match generateBurnRatio Demo.within Demo.LC8 INIT POST with
                 | Ok _ => True
                 | Err _ => False
                 end) by (vm_compute; exact I).
  destruct (generateBurnRatio Demo.within Demo.LC8 INIT POST) as [burn | e] eqn:E;
    [clear Hrun | exact Hrun].
  destruct (generateBurnRatio_defined_is_one
              Demo.within Demo.LC8 INIT POST burn E)
    as (init & post & nbr_init & nbr_post & Hi & Hp & Hni & Hnp & H).
  assert (Ei : forall p, Demo.nbr_value INIT p = nbr_init p).
  { intros p. unfold Demo.nbr_value. rewrite Hi, Hni. reflexivity. }
  assert (Ep : forall p, Demo.nbr_value POST p = nbr_post p).
  { intros p. unfold Demo.nbr_value. rewrite Hp, Hnp. reflexivity. }
  destruct (H (0, 0)%Z) as [Hone Hdef]. split; [| exact Hone].
  apply Hdef. rewrite <- Ei, <- Ep. vm_compute.
  eexists. eexists. split; [reflexivity |]. split; reflexivity.
Defined.

(** ** Failures of the pipeline *)

Lemma only_mismatch_Ok {A : Type} (a : A) : only_mismatch (Ok a).
Proof. intros e H. discriminate H. Qed.

Lemma only_mismatch_bind {A B : Type} (c : Result A) (k : A -> Result B) :
  only_mismatch c -> (forall a, only_mismatch (k a)) -> only_mismatch (bind c k).
Proof.
  intros Hc Hk e H. apply bind_Err in H. destruct H as [H | [a [_ H]]].
  - apply Hc. exact H.
  - eapply Hk. exact H.
Qed.

Lemma only_mismatch_select (img : EE.Image) (name : string) :
  only_mismatch (EE.select img name).
Proof.
  unfold EE.select. intros e H.
  destruct (EE.lookup name img); [discriminate H |]. inv_Ok H. reflexivity.
Qed.

Lemma only_mismatch_expression (img : EE.Image) (exp : EE.Exp) :
  only_mismatch (EE.expression img exp).
Proof.
  induction exp as [name | | e1 IH1 e2 IH2]; simpl.
  - apply only_mismatch_select.
  - destruct img as [| [n b] rest]; intros e H; [| discriminate H].
    inv_Ok H. reflexivity.
  - apply only_mismatch_bind; [exact IH1 |]. intros x.
    apply only_mismatch_bind; [exact IH2 |]. intros y. apply only_mismatch_Ok.
Qed.

Lemma only_mismatch_rescale (img : EE.Image) (exp : EE.Exp) (th : Q * Q) :
  only_mismatch (_rescale img exp th).
Proof.
  unfold _rescale. apply only_mismatch_bind.
  - apply only_mismatch_expression.
  - intros a. apply only_mismatch_Ok.
Qed.

Lemma only_mismatch_normalizedDifference (img : EE.Image) (a b : string) :
  only_mismatch (EE.normalizedDifference img a b).
Proof.
  unfold EE.normalizedDifference.
  apply only_mismatch_bind; [apply only_mismatch_select |]. intros x.
  apply only_mismatch_bind; [apply only_mismatch_select |]. intros y.
  apply only_mismatch_Ok.
Qed.

Lemma only_mismatch_cloudDensity (img : EE.Image) :
  only_mismatch (cloudDensity img).
Proof.
  unfold cloudDensity.
  repeat first
    [ apply only_mismatch_Ok
    | apply only_mismatch_rescale
    | apply only_mismatch_normalizedDifference
    | apply only_mismatch_bind; [| intros ?] ].
Qed.

Lemma only_mismatch_makeCloudFree (img : EE.Image) :
  only_mismatch (makeCloudFree img).
Proof.
  unfold makeCloudFree. apply only_mismatch_bind.
  - apply only_mismatch_cloudDensity.
  - intros a. apply only_mismatch_Ok.
Qed.

Lemma only_mismatch_mapM {A B : Type} (f : A -> Result B) (l : list A) :
  (forall x, only_mismatch (f x)) -> only_mismatch (mapM f l).
Proof.
  intros Hf. induction l as [| x l IH]; simpl.
  - apply only_mismatch_Ok.
  - apply only_mismatch_bind; [apply Hf |]. intros y.
    apply only_mismatch_bind; [exact IH |]. intros ys. apply only_mismatch_Ok.
Qed.

Lemma only_mismatch_createComposite
    (within : string -> string -> Z -> bool) (coll : EE.ImageCollection)
    (time_range : string * string) :
  only_mismatch (createComposite within coll time_range).
Proof.
  unfold createComposite. destruct time_range as [start end_].
  apply only_mismatch_bind; [| intros a; apply only_mismatch_Ok].
  unfold EE.map. apply only_mismatch_bind; [| intros a; apply only_mismatch_Ok].
  apply only_mismatch_mapM. intros x.
  apply only_mismatch_bind; [apply only_mismatch_makeCloudFree |].
  intros a. apply only_mismatch_Ok.
Qed.

(** ** Order of the collection *)

Lemma filter_Permutation {A : Type} (f : A -> bool) (l l' : list A) :
  Permutation l l' -> Permutation (filter f l) (filter f l').
Proof.
  induction 1 as [| x l l' _ IH | x y l | l l' l'' _ IH1 _ IH2]; simpl.
  - constructor.
  - destruct (f x); [constructor |]; exact IH.
  - destruct (f x), (f y); try apply Permutation_refl. constructor.
  - eapply Permutation_trans; eassumption.
Qed.

Lemma mapM_Permutation {A B : Type} (f : A -> Result B) (l l' : list A) :
  Permutation l l' ->
  forall r, mapM f l = Ok r -> exists r', mapM f l' = Ok r' /\ Permutation r r'.
Proof.
  induction 1 as [| x l l' _ IH | x y l | l l' l'' _ IH1 _ IH2]; simpl; intros r H.
  - exists r. split; [exact H | apply Permutation_refl].
  - inv_bind H as y Hy. inv_bind H as ys Hys. inv_Ok H.
    destruct (IH _ Hys) as [ys' [E P]].
    exists (y :: ys'). rewrite Hy, E. simpl. split; [reflexivity |].
    constructor. exact P.
  - inv_bind H as b Hb. inv_bind H as r1 H1. inv_Ok H.
    inv_bind H1 as a Ha. inv_bind H1 as r2 H2. inv_Ok H1.
    exists (a :: b :: r2). rewrite Ha, Hb, H2. simpl.
    split; [reflexivity | constructor].
  - destruct (IH1 _ H) as [r' [E' P']]. destruct (IH2 _ E') as [r'' [E'' P'']].
    exists r''. split; [exact E'' |]. eapply Permutation_trans; eassumption.
Qed.

Lemma pixel_eq_trans (a b c : option Q) :
  pixel_eq a b -> pixel_eq b c -> pixel_eq a c.
Proof.
  destruct a, b, c; simpl; try tauto. apply Qeq_trans.
Qed.

Lemma omin_compat (x a b : option Q) :
  pixel_eq a b -> pixel_eq (EE.omin x a) (EE.omin x b).
Proof.
  destruct x as [u |], a as [v |], b as [w |]; simpl; try tauto.
  - intros H. apply Q.min_compat; [reflexivity | exact H].
  - intros _. reflexivity.
Qed.

Lemma omin_swap (x y a : option Q) :
  pixel_eq (EE.omin x (EE.omin y a)) (EE.omin y (EE.omin x a)).
Proof.
  destruct x as [u |], y as [v |], a as [w |]; simpl; try reflexivity;
    try exact I.
  - rewrite !Q.min_assoc. apply Q.min_compat; [apply Q.min_comm | reflexivity].
  - apply Q.min_comm.
Qed.

(** The minimum over the images of a collection does not depend on their
    order. *)
Lemma reduce_Permutation (name : string) (p : EE.Pixel)
    (l l' : list (Z * EE.Image)) :
  Permutation l l' ->
  pixel_eq
    (fold_right (fun s acc => EE.omin (EE.value (snd s) name p) acc) None l)
    (fold_right (fun s acc => EE.omin (EE.value (snd s) name p) acc) None l').
Proof.
  induction 1 as [| x l l' _ IH | x y l | l l' l'' _ IH1 _ IH2]; simpl.
  - exact I.
  - apply omin_compat. exact IH.
  - apply omin_swap.
  - eapply pixel_eq_trans; eassumption.
Qed.

Lemma reduceMin_Permutation (c c' : EE.ImageCollection) :
  EE.bandNames c = EE.bandNames c' ->
  Permutation (EE.scenes c) (EE.scenes c') ->
  image_eq (EE.reduceMin c) (EE.reduceMin c').
Proof.
  intros Hn Hp. unfold image_eq, EE.reduceMin. rewrite <- Hn. clear Hn.
  induction (EE.bandNames c) as [| n names IH]; simpl; constructor.
  - simpl. split; [reflexivity |]. intros p.
    apply reduce_Permutation. exact Hp.
  - exact IH.
Qed.

(** C5.  For two collections with the same band names whose images are a
    permutation of each other, and every date range, [createComposite]
    (date filter, cloud mask of every image at threshold 0.5, pixel-wise
    minimum) gives the same raster: the same bands and, at every pixel, the
    same value or no-data in both; when the composite of one fails, so does
    the other, with the same error. *)
Theorem createComposite_order_independent :
  forall (within : string -> string -> Z -> bool) (c c' : EE.ImageCollection)
         (time_range : string * string),
    EE.bandNames c = EE.bandNames c' ->
    Permutation (EE.scenes c) (EE.scenes c') ->
    match createComposite within c time_range,
          createComposite within c' time_range with
    | Ok a, Ok b => image_eq a b
    | Err e, Err e' => e = e'
    | _, _ => False
    end.
Proof.
  intros within c c' [start end_] Hn Hp.
  pose proof (only_mismatch_createComposite within c (start, end_)) as Hm.
  pose proof (only_mismatch_createComposite within c' (start, end_)) as Hm'.
  assert (Hf : Permutation (EE.scenes (EE.filterDate within c start end_))
                           (EE.scenes (EE.filterDate within c' start end_))).
  { simpl. apply filter_Permutation. exact Hp. }
  assert (Hstep : forall d d' a,
             EE.bandNames d = EE.bandNames d' ->
             Permutation (EE.scenes d) (EE.scenes d') ->
             (coll <- EE.map makeCloudFree d ;; Ok (EE.reduceMin coll)) = Ok a ->
             exists b, (coll <- EE.map makeCloudFree d' ;; Ok (EE.reduceMin coll)) = Ok b
                       /\ image_eq a b).
  { intros d d' a Hdn Hdp H. inv_bind H as m Hmap. inv_Ok H.
    unfold EE.map in Hmap. inv_bind Hmap as l Hl. inv_Ok Hmap.
    destruct (mapM_Permutation _ _ _ Hdp _ Hl) as [l' [El' Pl']].
    unfold EE.map. rewrite El'. simpl. eexists. split; [reflexivity |].
    apply reduceMin_Permutation; simpl; assumption. }
  unfold createComposite in *.
  set (d := EE.filterDate within c start end_) in *.
  set (d' := EE.filterDate within c' start end_) in *.
  assert (Hdn : EE.bandNames d = EE.bandNames d') by exact Hn.
  destruct (coll <- EE.map makeCloudFree d ;; Ok (EE.reduceMin coll))
    as [a | e] eqn:Ea.
  - destruct (Hstep d d' a Hdn Hf Ea) as [b [Eb Hab]]. rewrite Eb. exact Hab.
  - destruct (coll <- EE.map makeCloudFree d' ;; Ok (EE.reduceMin coll))
      as [b | e'] eqn:Eb.
    + destruct (Hstep d' d b (eq_sym Hdn) (Permutation_sym Hf) Eb) as [a [Ea' _]].
      rewrite Ea in Ea'. discriminate Ea'.
    + rewrite (Hm e eq_refl), (Hm' e' eq_refl). reflexivity.
Qed.

Lemma createComposite_order_independent_witness :
  match createComposite Demo.within Demo.LC8 INIT,
        createComposite Demo.within Demo.LC8_shuffled INIT with
  | Ok a, Ok b => image_eq a b
  | Err e, Err e' => e = e'
  | _, _ => False
  end.
Proof.
  apply (createComposite_order_independent Demo.within Demo.LC8 Demo.LC8_shuffled).
  - reflexivity.
  - simpl. eapply perm_trans; [apply perm_swap |].
    eapply perm_trans; [apply perm_skip, perm_swap |]. apply perm_swap.
Defined.

(** ** Rasters that carry the bands the program reads *)

Lemma mask_names (img : EE.Image) (m : EE.Band) :
  List.map fst (EE.mask img m) = List.map fst img.
Proof.
  unfold EE.mask. rewrite List.map_map. reflexivity.
Qed.

Lemma reduceMin_names (c : EE.ImageCollection) :
  List.map fst (EE.reduceMin c) = EE.bandNames c.
Proof.
  unfold EE.reduceMin. rewrite List.map_map. simpl. apply List.map_id.
Qed.

Lemma select_total (img : EE.Image) (name : string) :
  In name (List.map fst img) -> exists b, EE.select img name = Ok b.
Proof. apply select_Ok_iff. Qed.

Lemma cloudDensity_total (img : EE.Image) :
  incl required_bands (List.map fst img) ->
  exists score, cloudDensity img = Ok score.
Proof.
  intros H.
  assert (S : forall n, In n required_bands -> exists b, EE.select img n = Ok b).
  { intros n Hn. apply select_total, H, Hn. }
  unfold required_bands in S.
  destruct (S "B2") as [b2 E2]; [simpl; tauto |].
  destruct (S "B3") as [b3 E3]; [simpl; tauto |].
  destruct (S "B4") as [b4 E4]; [simpl; tauto |].
  destruct (S "B5") as [b5 E5]; [simpl; tauto |].
  destruct (S "B6") as [b6 E6]; [simpl; tauto |].
  destruct (S "B7") as [b7 E7]; [simpl; tauto |].
  destruct (S "B10") as [b10 E10]; [simpl; tauto |].
  unfold cloudDensity, _rescale, EE.normalizedDifference. simpl.
  rewrite E2, E3, E4, E5, E6, E7, E10. simpl.
  eexists. reflexivity.
Qed.

Lemma makeCloudFree_total (img : EE.Image) :
  incl required_bands (List.map fst img) ->
  exists img', makeCloudFree img = Ok img' /\
               List.map fst img' = List.map fst img.
Proof.
  intros H. destruct (cloudDensity_total img H) as [score E].
  unfold makeCloudFree. rewrite E. simpl. eexists. split; [reflexivity |].
  apply mask_names.
Qed.


Lemma createComposite_names
    (within : string -> string -> Z -> bool) (coll : EE.ImageCollection)
    (time_range : string * string) (c : EE.Image) :
  createComposite within coll time_range = Ok c ->
  List.map fst c = EE.bandNames coll.
Proof.
  unfold createComposite. destruct time_range as [start end_]. intros H.
  inv_bind H as m Hm. inv_Ok H. unfold EE.map in Hm.
  inv_bind Hm as l Hl. inv_Ok Hm. rewrite reduceMin_names. reflexivity.
Qed.

(** ** Rasters without data *)









Lemma normalizedDifference_total (img : EE.Image) :
  incl required_bands (List.map fst img) ->
  exists r, EE.normalizedDifference img "B6" "B4" = Ok r.
Proof.
  intros H. unfold EE.normalizedDifference.
  destruct (select_total img "B6") as [x Ex];
    [apply H; unfold required_bands; simpl; tauto |].
  destruct (select_total img "B4") as [y Ey];
    [apply H; unfold required_bands; simpl; tauto |].
  rewrite Ex, Ey. simpl. eexists. reflexivity.
Qed.

(** ** Collections whose images carry the bands *)

Lemma mapM_total {A B : Type} (f : A -> Result B) (l : list A) :
  Forall (fun x => exists y, f x = Ok y) l -> exists r, mapM f l = Ok r.
Proof.
  induction 1 as [| x l [y Hy] _ [r IH]]; simpl.
  - eexists. reflexivity.
  - rewrite Hy, IH. simpl. eexists. reflexivity.
Qed.

Lemma createComposite_total
    (within : string -> string -> Z -> bool) (coll : EE.ImageCollection)
    (time_range : string * string) :
  Forall (fun s => incl required_bands (List.map fst (snd s))) (EE.scenes coll) ->
  exists c, createComposite within coll time_range = Ok c.
Proof.
  intros H. destruct time_range as [start end_].
  unfold createComposite, EE.map.
  destruct (mapM_total
              (fun s => img <- makeCloudFree (snd s) ;; Ok (fst s, img))
              (EE.scenes (EE.filterDate within coll start end_))) as [l El].
  - simpl. apply Forall_forall. intros s Hs. apply filter_In in Hs.
    destruct Hs as [Hs _]. rewrite Forall_forall in H.
    destruct (makeCloudFree_total (snd s) (H s Hs)) as [img [Ei _]].
    rewrite Ei. simpl. eexists. reflexivity.
  - rewrite El. simpl. eexists. reflexivity.
Qed.

(** On a collection that names the bands the program reads and whose images
    carry them, [generateBurnRatio] evaluates for every pair of date
    ranges. *)
Lemma generateBurnRatio_total
    (within : string -> string -> Z -> bool) (coll : EE.ImageCollection)
    (init_season post_season : string * string) :
  incl required_bands (EE.bandNames coll) ->
  Forall (fun s => incl required_bands (List.map fst (snd s))) (EE.scenes coll) ->
  exists burn, generateBurnRatio within coll init_season post_season = Ok burn.
Proof.
  intros Hb Hs.
  assert (Hfree : forall season,
             exists img,
               (c <- createComposite within coll season ;; makeCloudFree c) = Ok img
               /\ List.map fst img = EE.bandNames coll).
  { intros season.
    destruct (createComposite_total within coll season Hs) as [c Ec].
    pose proof (createComposite_names _ _ _ _ Ec) as Hn.
    destruct (makeCloudFree_total c) as [img [Ei Hi]]; [rewrite Hn; exact Hb |].
    exists img. rewrite Ec. simpl. split; [exact Ei |]. rewrite Hi. exact Hn. }
  destruct (Hfree init_season) as [init [Ei Ni]].
  destruct (Hfree post_season) as [post [Ep Np]].
  destruct (normalizedDifference_total init) as [ni Eni]; [rewrite Ni; exact Hb |].
  destruct (normalizedDifference_total post) as [np Enp]; [rewrite Np; exact Hb |].
  unfold generateBurnRatio. rewrite Ei, Ep. simpl. rewrite Eni, Enp. simpl.
  eexists. reflexivity.
Qed.


Lemma only_mismatch_generateBurnRatio
    (within : string -> string -> Z -> bool) (coll : EE.ImageCollection)
    (init_season post_season : string * string) :
  only_mismatch (generateBurnRatio within coll init_season post_season).
Proof.
  unfold generateBurnRatio.
  repeat first
    [ apply only_mismatch_Ok
    | apply only_mismatch_createComposite
    | apply only_mismatch_makeCloudFree
    | apply only_mismatch_normalizedDifference
    | apply only_mismatch_bind; [| intros ?] ].
Qed.

(** ** Claims on seasons without imagery and on the fire buffer *)

Lemma expression_Ref_Ok (img : EE.Image) (name : string) (b : EE.Band) :
  EE.expression img (EE.Ref name) = Ok b -> In name (List.map fst img).
Proof.
  simpl. intros H. apply select_Ok_iff. exists b. exact H.
Qed.

Lemma plus3_Ok (img : EE.Image) (a b c : string) (raw : EE.Band) :
  EE.expression img (EE.Plus (EE.Plus (EE.Ref a) (EE.Ref b)) (EE.Ref c)) = Ok raw ->
  In a (List.map fst img) /\ In b (List.map fst img) /\ In c (List.map fst img).
Proof.
  simpl. intros H. inv_bind H as ab Hab. inv_bind Hab as x Hx.
  inv_bind Hab as y Hy. inv_bind H as z Hz.
  repeat split; apply select_Ok_iff; eexists; eassumption.
Qed.

(** When the score evaluates, the raster carries the seven bands. *)
Lemma cloudDensity_Ok_bands (img : EE.Image) (score : EE.Band) :
  cloudDensity img = Ok score -> incl required_bands (List.map fst img).
Proof.
  rewrite cloudDensity_signals. intros H. inv_bind H as sigs Hs. clear H.
  unfold signals in Hs.
  inv_bind Hs as s1 H1. inv_bind Hs as s2 H2. inv_bind Hs as s3 H3.
  inv_bind Hs as s4 H4. inv_bind Hs as ndsi Hn. clear Hs.
  apply rescale_pixel in H1, H2, H3, H4.
  destruct H1 as [w1 [E1 _]]. destruct H2 as [w2 [E2 _]].
  destruct H3 as [w3 [E3 _]]. destruct H4 as [w4 [E4 _]].
  apply expression_Ref_Ok in E1, E4.
  apply plus3_Ok in E2, E3.
  destruct E2 as (I4 & I3 & _). destruct E3 as (I5 & I6 & I7).
  unfold required_bands.
  intros n [<- | [<- | [<- | [<- | [<- | [<- | [<- | []]]]]]]]; assumption.
Qed.





(** C9 (amended).  [loadFireBuffer] does not check the radius: for every
    fire source and every integer [meters], negative ones included, it
    evaluates to the union of the geometries of the source, each buffered by
    [meters].  Neither it nor [main] ever fails with InvalidRangeError. *)
Theorem loadFireBuffer_does_not_check_radius :
  forall (Geometry : Type) (FeatureCollection : string -> list Geometry)
         (buffer : Geometry -> Z -> Geometry)
         (union : list Geometry -> Geometry)
         (fire_location : string) (meters : Z),
    loadFireBuffer Geometry FeatureCollection buffer union fire_location meters
    = Ok (union (List.map (fun f => buffer f meters)
                          (FeatureCollection fire_location)))
    /\
    forall (within : string -> string -> Z -> bool) (coll : EE.ImageCollection)
           (covers : Geometry -> EE.Pixel -> bool),
      main within coll Geometry FeatureCollection buffer union covers meters
      <> Err InvalidRangeError.
Proof.
  intros Geometry FeatureCollection buffer union fire_location meters.
  split; [reflexivity |].
  intros within coll covers H. unfold main in H.
  apply bind_Err in H. destruct H as [H | [nbr [_ H]]].
  - apply only_mismatch_generateBurnRatio in H. discriminate H.
  - simpl in H. discriminate H.
Qed.

(** With the fires as discs, a radius of -1 meters is buffered like any
    other: the call returns the union of the shrunk discs, not an error. *)
Lemma negative_radius_is_not_rejected :
  loadFireBuffer Demo.Geometry Demo.FeatureCollection Demo.buffer Demo.union
                 FIRES (-1)
  = Ok [((0, 0), -1); ((4, 0), -1)]%Z
  /\
  loadFireBuffer Demo.Geometry Demo.FeatureCollection Demo.buffer Demo.union
                 FIRES (-1)
  <> Err InvalidRangeError.
Proof.
  split; [reflexivity | discriminate].
Qed.

(** ** More on cloud scoring and masking *)

Lemma lookup_mask (img : EE.Image) (m : EE.Band) (name : string) :
  EE.lookup name (EE.mask img m) =
  match EE.lookup name img with
  | Some b => Some (EE.mask1 b m)
  | None => None
  end.
Proof.
  induction img as [| [n b] rest IH]; simpl; [reflexivity |].
  destruct (String.eqb name n); [reflexivity | exact IH].
Qed.

(** A band of the masked raster, pixel by pixel. *)
Lemma value_cloudMask (img : EE.Image) (s : EE.Band) (t : Q)
    (name : string) (p : EE.Pixel) :
  EE.value (cloudMask img s t) name p =
  match s p with
  | Some x => if Qle_bool x t then EE.value img name p else None
  | None => None
  end.
Proof.
  unfold cloudMask, EE.value. rewrite lookup_mask.
  destruct (EE.lookup name img) as [b |].
  - apply mask1_lte.
  - destruct (s p) as [x |]; [destruct (Qle_bool x t) |]; reflexivity.
Qed.

Lemma makeCloudFree_Ok (img out : EE.Image) :
  makeCloudFree img = Ok out ->
  exists score,
    cloudDensity img = Ok score /\
    List.map fst out = List.map fst img /\
    forall name p,
      EE.value out name p =
      match score p with
      | Some x => if Qle_bool x 0.5 then EE.value img name p else None
      | None => None
      end.
Proof.
  unfold makeCloudFree. intros H. inv_bind H as score Hs. inv_Ok H.
  exists score. split; [exact Hs |]. split; [apply mask_names |].
  intros name p. apply value_cloudMask.
Qed.

(** The raw values at a pixel are read from the seven bands at that pixel. *)
Lemma raw_values_ext (a b : EE.Image) (p : EE.Pixel) :
  (forall n, In n required_bands -> EE.value a n p = EE.value b n p) ->
  raw_values a p = raw_values b p.
Proof.
  intros H. unfold raw_values.
  rewrite (H "B2"), (H "B3"), (H "B4"), (H "B5"), (H "B6"), (H "B7"), (H "B10");
    try reflexivity; unfold required_bands; simpl; tauto.
Qed.




(** ** Further properties of the cloud scorer *)

(** X1.  [cloudDensity] evaluates exactly on the rasters that carry the
    seven bands B2, B3, B4, B5, B6, B7 and B10; on every other raster it
    fails with a band mismatch, and so does [makeCloudFree]. *)
Theorem cloudDensity_needs_seven_bands :
  forall img : EE.Image,
    (incl required_bands (List.map fst img) ->
     (exists score, cloudDensity img = Ok score) /\
     (exists out, makeCloudFree img = Ok out))
    /\
    (~ incl required_bands (List.map fst img) ->
     cloudDensity img = Err BandMismatchError /\
     makeCloudFree img = Err BandMismatchError).
Proof.
  intros img. split.
  - intros H. split; [apply cloudDensity_total; exact H |].
    destruct (makeCloudFree_total img H) as [out [E _]]. exists out. exact E.
  - intros H.
    assert (E : cloudDensity img = Err BandMismatchError).
    { destruct (cloudDensity img) as [score | e] eqn:E.
      - exfalso. apply H. eapply cloudDensity_Ok_bands. exact E.
      - rewrite (only_mismatch_cloudDensity img e E). reflexivity. }
    split; [exact E |]. unfold makeCloudFree. rewrite E. reflexivity.
Qed.

Lemma score_ext (a b : EE.Image) (sa sb : EE.Band) (p : EE.Pixel) :
  cloudDensity a = Ok sa ->
  cloudDensity b = Ok sb ->
  (forall n, In n required_bands -> EE.value a n p = EE.value b n p) ->
  sa p = sb p.
Proof.
  intros Ha Hb H.
  destruct (cloudDensity_Ok _ _ Ha) as [_ [_ Pa]].
  destruct (cloudDensity_Ok _ _ Hb) as [_ [_ Pb]].
  rewrite Pa, Pb, (raw_values_ext a b p H). reflexivity.
Qed.

(** X2.  The score at a pixel is read from the seven bands at that pixel
    only: two rasters that agree there on B2, B3, B4, B5, B6, B7 and B10 have
    the same score there, whatever their other bands and other pixels. *)
Theorem cloudDensity_reads_seven_bands_at_pixel :
  forall (a b : EE.Image) (sa sb : EE.Band) (p : EE.Pixel),
    cloudDensity a = Ok sa ->
    cloudDensity b = Ok sb ->
    (forall n, In n required_bands -> EE.value a n p = EE.value b n p) ->
    sa p = sb p.
Proof.
  intros a b sa sb p Ha Hb H. eapply score_ext; eassumption.
Qed.

Lemma cloudDensity_reads_seven_bands_at_pixel_witness :
  exists sa sb,
    cloudDensity Demo.before = Ok sa /\
    cloudDensity Demo.greener = Ok sb /\
    sa (1, 0)%Z = sb (1, 0)%Z.
Proof.
  eexists. eexists. split; [reflexivity |]. split; [reflexivity |].
  apply (cloudDensity_reads_seven_bands_at_pixel Demo.before Demo.greener);
    try reflexivity.
  unfold required_bands.
  intros n [<- | [<- | [<- | [<- | [<- | [<- | [<- | []]]]]]]]; reflexivity.
Defined.

Lemma fold_Qmin_gt (c : Q) (vs : list Q) :
  forall a, c < fold_left Qmin vs a <-> c < a /\ Forall (fun v => c < v) vs.
Proof.
  induction vs as [| v vs IH]; intros a; simpl.
  - split; [intros H; split; [exact H | constructor] | intros [H _]; exact H].
  - rewrite IH, Q.min_glb_lt_iff. split.
    + intros [[Ha Hv] Hvs]. split; [exact Ha | constructor; assumption].
    + intros [Ha Hvs]. inversion Hvs; subst. repeat split; assumption.
Qed.

(** X3.  The cloud test of [makeCloudFree] is a conjunction of the five
    signals.  A pixel where one of the signals is no-data is masked in every
    band; elsewhere the pixel is masked in every band when all five signals
    exceed 0.5, and is left as it is in every band as soon as one of them is
    at most 0.5. *)
Theorem makeCloudFree_cloud_test :
  forall (img out : EE.Image),
    makeCloudFree img = Ok out ->
    exists sigs,
      signals img = Ok sigs /\
      forall p : EE.Pixel,
        match values_at sigs p with
        | None => forall name, EE.value out name p = None
        | Some vs =>
            (Forall (fun v => 0.5 < v) vs ->
             forall name, EE.value out name p = None) /\
            (~ Forall (fun v => 0.5 < v) vs ->
             forall name, EE.value out name p = EE.value img name p)
        end.
Proof.
  intros img out H.
  destruct (makeCloudFree_Ok _ _ H) as [score [Hs [_ Hv]]].
  rewrite cloudDensity_signals in Hs. inv_bind Hs as sigs Hsigs. inv_Ok Hs.
  exists sigs. split; [exact Hsigs |]. intros p.
  assert (Hscore : fold_left EE.min sigs (EE.constant 1.0) p =
                   match values_at sigs p with
                   | Some vs => Some (fold_left Qmin vs 1.0)
                   | None => None
                   end).
  { rewrite fold_min_values. reflexivity. }
  destruct (values_at sigs p) as [vs |].
  - assert (Hiff : 0.5 < fold_left Qmin vs 1.0 <-> Forall (fun v => 0.5 < v) vs).
    { rewrite fold_Qmin_gt. split; [intros [_ F]; exact F |].
      intros F. split; [reflexivity | exact F]. }
    split.
    + intros Hc name. rewrite Hv, Hscore.
      destruct (Qle_bool (fold_left Qmin vs 1.0) 0.5) eqn:E; [| reflexivity].
      apply Qle_bool_true in E. apply Hiff in Hc. lra.
    + intros Hc name. rewrite Hv, Hscore.
      destruct (Qle_bool (fold_left Qmin vs 1.0) 0.5) eqn:E; [reflexivity |].
      apply Qle_bool_false in E. exfalso. apply Hc, Hiff. lra.
  - intros name. rewrite Hv, Hscore. reflexivity.
Qed.

Lemma makeCloudFree_cloud_test_witness :
  match makeCloudFree Demo.cloudy, makeCloudFree Demo.before with
  | Ok cloud, Ok clear =>
      EE.value cloud "B4" (0, 0)%Z = None /\
      EE.value clear "B4" (0, 0)%Z = Some 0.45
  | _, _ => False
  end.
Proof.
  assert (Hrun : match makeCloudFree Demo.cloudy, makeCloudFree Demo.before with
                 | Ok _, Ok _ => True
                 | _, _ => False
                 end) by (vm_compute; exact I).
  destruct (makeCloudFree Demo.cloudy) as [cloud | e] eqn:Ec; [| exact Hrun].
  destruct (makeCloudFree Demo.before) as [clear | e] eqn:Eb; [| exact Hrun].
  clear Hrun. split.
  - destruct (makeCloudFree_cloud_test _ _ Ec) as [sigs [Hsigs H]].
    assert (Hval : match signals Demo.cloudy with
                   | Ok l =>
                       match values_at l (0, 0)%Z with
                       | Some vs => Forall (fun v => 0.5 < v) vs
                       | None => False
                       end
                   | Err _ => False
                   end) by (vm_compute; repeat constructor).
    rewrite Hsigs in Hval. specialize (H (0, 0)%Z).
    destruct (values_at sigs (0, 0)%Z) as [vs |]; [| contradiction].
    exact (proj1 H Hval "B4").
  - destruct (makeCloudFree_cloud_test _ _ Eb) as [sigs [Hsigs H]].
    assert (Hval : match signals Demo.before with
                   | Ok l =>
                       match values_at l (0, 0)%Z with
                       | Some vs => ~ Forall (fun v => 0.5 < v) vs
                       | None => False
                       end
                   | Err _ => False
                   end).
    { vm_compute. intros F. inversion F as [| v l H1 _]. discriminate H1. }
    rewrite Hsigs in Hval. specialize (H (0, 0)%Z).
    destruct (values_at sigs (0, 0)%Z) as [vs |]; [| contradiction].
    rewrite (proj2 H Hval "B4"). reflexivity.
Defined.

(** X4.  A brighter pixel never has a lower cloud score: between two
    rasters that agree at a pixel on all bands but one of B2, B4, B5 and B7,
    the one with the larger value in that band has a score that is defined
    whenever the other is and at least as large. *)
Theorem cloudDensity_monotone_in_brightness :
  forall (n : string), In n ["B2"; "B4"; "B5"; "B7"] ->
  forall (img img' : EE.Image) (score score' : EE.Band) (p : EE.Pixel) (x y : Q),
    cloudDensity img = Ok score ->
    cloudDensity img' = Ok score' ->
    (forall m, m <> n -> EE.value img m p = EE.value img' m p) ->
    EE.value img n p = Some x ->
    EE.value img' n p = Some y ->
    x <= y ->
    forall v, score p = Some v -> exists v', score' p = Some v' /\ v <= v'.
Proof.
  intros n Hn img img' score score' p x y Hc Hc' Hsame Hx Hy Hle v Hv.
  destruct (cloudDensity_Ok _ _ Hc) as [_ [_ P]].
  destruct (cloudDensity_Ok _ _ Hc') as [_ [_ P']].
  rewrite P in Hv. rewrite P'. clear P P' Hc Hc'.
  unfold raw_values in *.
  destruct Hn as [<- | [<- | [<- | [<- | []]]]];
    rewrite Hx in Hv; rewrite Hy;
    repeat match goal with
           | |- context [EE.value img' ?m p] =>
               rewrite <- (Hsame m) by discriminate
           end;
    destruct (EE.value img "B2" p), (EE.value img "B3" p),
      (EE.value img "B4" p), (EE.value img "B5" p), (EE.value img "B6" p),
      (EE.value img "B7" p), (EE.value img "B10" p);
    unfold EE.nd in *; simpl in *; try discriminate Hv;
    match goal with
    | |- context [Qeq_bool ?e 0] => destruct (Qeq_bool e 0)
    end;
    simpl in *; try discriminate Hv;
    inv_Ok Hv; (eexists; split; [reflexivity |]);
    repeat apply Q.min_le_compat; try apply Qle_refl;
    (apply rescale_ascending; [reflexivity | lra]).
Qed.

Lemma cloudDensity_monotone_in_brightness_witness :
  exists score score',
    cloudDensity Demo.before = Ok score /\
    cloudDensity Mixed.brighter = Ok score' /\
    forall v, score (0, 0)%Z = Some v ->
              exists v', score' (0, 0)%Z = Some v' /\ v <= v'.
Proof.
  eexists. eexists. split; [reflexivity |]. split; [reflexivity |].
  apply (cloudDensity_monotone_in_brightness "B5"
           ltac:(simpl; tauto) Demo.before Mixed.brighter _ _ (0, 0)%Z 0.30 0.50);
    try reflexivity.
  - intros m Hm. unfold EE.value. simpl.
    destruct (String.eqb m "B2"); [reflexivity |].
    destruct (String.eqb m "B3"); [reflexivity |].
    destruct (String.eqb m "B4"); [reflexivity |].
    destruct (String.eqb_spec m "B5") as [E | _]; [contradiction |].
    reflexivity.
  - vm_compute. discriminate.
Defined.



(** X6.  Masking twice with the same scores is masking once at the smaller
    threshold, and raising the threshold only adds pixels: a pixel that
    carries a value at a threshold carries the same value at every larger
    one. *)
Theorem cloudMask_thresholds_compose :
  forall (img : EE.Image) (cloud_scores : EE.Band) (t t' : Q)
         (name : string) (p : EE.Pixel),
    EE.value (cloudMask (cloudMask img cloud_scores t) cloud_scores t') name p
    = EE.value (cloudMask img cloud_scores (Qmin t t')) name p
    /\
    (t <= t' ->
     forall v, EE.value (cloudMask img cloud_scores t) name p = Some v ->
               EE.value (cloudMask img cloud_scores t') name p = Some v).
Proof.
  intros img s t t' name p. rewrite !value_cloudMask.
  destruct (s p) as [x |]; [| split; [reflexivity | discriminate]].
  destruct (Qle_bool x t) eqn:Et, (Qle_bool x t') eqn:Et',
    (Qle_bool x (Qmin t t')) eqn:Em;
    repeat match goal with
           | H : Qle_bool _ _ = true |- _ => apply Qle_bool_true in H
           | H : Qle_bool _ _ = false |- _ => apply Qle_bool_false in H
           end;
    try (exfalso; apply Em; apply Q.min_glb; assumption);
    try (exfalso; apply Q.min_glb_iff in Em; tauto);
    (split; [reflexivity |]); try discriminate; try tauto.
  intros Hle. exfalso. apply Et'. lra.
Qed.

(** X7.  [makeCloudFree] is idempotent: on its own result it evaluates and
    changes nothing, in any band or pixel. *)
Theorem makeCloudFree_idempotent :
  forall (img out : EE.Image),
    makeCloudFree img = Ok out ->
    exists out',
      makeCloudFree out = Ok out' /\
      List.map fst out' = List.map fst out /\
      forall name p, EE.value out' name p = EE.value out name p.
Proof.
  intros img out H.
  destruct (makeCloudFree_Ok _ _ H) as [score [Hs [Hn Hv]]].
  destruct (makeCloudFree_total out) as [out' [E' Hn']].
  { rewrite Hn. eapply cloudDensity_Ok_bands. exact Hs. }
  exists out'. split; [exact E' |]. split; [exact Hn' |].
  destruct (makeCloudFree_Ok _ _ E') as [score' [Hs' [_ Hv']]].
  intros name p. rewrite Hv'.
  destruct (score p) as [x |] eqn:Ex.
  - destruct (Qle_bool x 0.5) eqn:Ele.
    + assert (Esame : score' p = score p).
      { eapply score_ext; [exact Hs' | exact Hs |].
        intros n _. rewrite Hv, Ex, Ele. reflexivity. }
      rewrite Esame, Ex, Ele. reflexivity.
    + assert (N : EE.value out name p = None) by (rewrite Hv, Ex, Ele; reflexivity).
      rewrite N. destruct (score' p) as [y |]; [destruct (Qle_bool y 0.5) |];
        reflexivity.
  - assert (N : EE.value out name p = None) by (rewrite Hv, Ex; reflexivity).
    rewrite N. destruct (score' p) as [y |]; [destruct (Qle_bool y 0.5) |];
      reflexivity.
Qed.

Lemma makeCloudFree_idempotent_witness :
  match makeCloudFree Demo.before with
  | Ok out =>
      exists out',
        makeCloudFree out = Ok out' /\
        EE.value out' "B6" (0, 0)%Z = EE.value out "B6" (0, 0)%Z
  | Err _ => False
  end.
Proof.
  assert (Hrun : match makeCloudFree Demo.before with
                 | Ok _ => True
                 | Err _ => False
                 end) by (vm_compute; exact I).
  destruct (makeCloudFree Demo.before) as [out | e] eqn:E; [| exact Hrun].
  destruct (makeCloudFree_idempotent _ _ E) as [out' [E' [_ Hv]]].
  exists out'. split; [exact E' | apply Hv].
Defined.

(** ** The composite, pixel by pixel *)

Lemma Qmin_is_an_argument (x y : Q) : Qmin x y = x \/ Qmin x y = y.
Proof.
  unfold Qmin, GenericMinMax.gmin. destruct (Qcompare x y); tauto.
Qed.

(** The reduction is no-data when every pixel is, and otherwise is one of
    the pixels and a lower bound of all of them. *)
Lemma fold_omin_spec {A : Type} (f : A -> option Q) (l : list A) :
  match fold_right (fun s acc => EE.omin (f s) acc) None l with
  | None => forall s, In s l -> f s = None
  | Some v => (exists s, In s l /\ f s = Some v) /\
              forall s w, In s l -> f s = Some w -> v <= w
  end.
Proof.
  induction l as [| a l IH]; simpl.
  - intros s [].
  - destruct (fold_right (fun s acc => EE.omin (f s) acc) None l) as [m |];
      destruct (f a) as [x |] eqn:Ea; simpl.
    + destruct IH as [[s [Hs Es]] Hlow]. split.
      * destruct (Qmin_is_an_argument x m) as [-> | ->].
        -- exists a. split; [left; reflexivity | exact Ea].
        -- exists s. split; [right; exact Hs | exact Es].
      * intros s' w [<- | Hin] Hw.
        -- rewrite Ea in Hw. inv_Ok Hw. apply Q.le_min_l.
        -- eapply Qle_trans; [apply Q.le_min_r | eapply Hlow; eassumption].
    + destruct IH as [[s [Hs Es]] Hlow]. split.
      * exists s. split; [right; exact Hs | exact Es].
      * intros s' w [<- | Hin] Hw; [congruence | eapply Hlow; eassumption].
    + split.
      * exists a. split; [left; reflexivity | exact Ea].
      * intros s' w [<- | Hin] Hw.
        -- rewrite Ea in Hw. inv_Ok Hw. apply Qle_refl.
        -- rewrite (IH s' Hin) in Hw. discriminate Hw.
    + intros s [<- | Hin]; [exact Ea | apply IH; exact Hin].
Qed.

Lemma lookup_reduceMin (c : EE.ImageCollection) (name : string) :
  EE.lookup name (EE.reduceMin c) =
  if in_dec string_dec name (EE.bandNames c)
  then Some (fun p =>
               fold_right (fun s acc => EE.omin (EE.value (snd s) name p) acc)
                          None (EE.scenes c))
  else None.
Proof.
  unfold EE.reduceMin.
  induction (EE.bandNames c) as [| n names IH]; simpl; [reflexivity |].
  destruct (String.eqb_spec name n) as [E | Hne].
  - subst n. destruct (string_dec name name) as [Y | N];
      [reflexivity | contradiction].
  - rewrite IH. destruct (string_dec n name) as [E | N]; [congruence |].
    destruct (in_dec string_dec name names); reflexivity.
Qed.

Lemma value_reduceMin (c : EE.ImageCollection) (name : string) (p : EE.Pixel) :
  EE.value (EE.reduceMin c) name p =
  if in_dec string_dec name (EE.bandNames c)
  then fold_right (fun s acc => EE.omin (EE.value (snd s) name p) acc)
                  None (EE.scenes c)
  else None.
Proof.
  unfold EE.value at 1. rewrite lookup_reduceMin.
  destruct (in_dec string_dec name (EE.bandNames c)); reflexivity.
Qed.

Lemma mapM_Forall2 {A B : Type} (f : A -> Result B) (l : list A) :
  forall r, mapM f l = Ok r -> Forall2 (fun x y => f x = Ok y) l r.
Proof.
  induction l as [| x l IH]; simpl; intros r H.
  - inv_Ok H. constructor.
  - inv_bind H as y Hy. inv_bind H as ys Hys. inv_Ok H.
    constructor; [exact Hy | apply IH; exact Hys].
Qed.

Lemma Forall2_In_l {A B : Type} (R : A -> B -> Prop) (l : list A) (r : list B) :
  Forall2 R l r -> forall x, In x l -> exists y, In y r /\ R x y.
Proof.
  induction 1 as [| a b l r Hab _ IH]; intros x Hx; [destruct Hx |].
  destruct Hx as [<- | Hx].
  - exists b. split; [left; reflexivity | exact Hab].
  - destruct (IH x Hx) as [y [Hy Hr]]. exists y. split; [right |]; assumption.
Qed.

Lemma Forall2_In_r {A B : Type} (R : A -> B -> Prop) (l : list A) (r : list B) :
  Forall2 R l r -> forall y, In y r -> exists x, In x l /\ R x y.
Proof.
  induction 1 as [| a b l r Hab _ IH]; intros y Hy; [destruct Hy |].
  destruct Hy as [<- | Hy].
  - exists a. split; [left; reflexivity | exact Hab].
  - destruct (IH y Hy) as [x [Hx Hr]]. exists x. split; [right |]; assumption.
Qed.

(** What [createComposite] reduces: the cloud-masked images in range. *)
Lemma createComposite_Ok
    (within : string -> string -> Z -> bool) (coll : EE.ImageCollection)
    (time_range : string * string) (c : EE.Image) :
  createComposite within coll time_range = Ok c ->
  exists l,
    Forall2 (fun s y => exists out, makeCloudFree (snd s) = Ok out /\
                                    y = (fst s, out))
            (filter (fun s => within (fst time_range) (snd time_range) (fst s))
                    (EE.scenes coll))
            l /\
    c = EE.reduceMin {| EE.bandNames := EE.bandNames coll; EE.scenes := l |}.
Proof.
  unfold createComposite. destruct time_range as [start end_]. intros H.
  inv_bind H as m Hm. inv_Ok H. unfold EE.map in Hm.
  inv_bind Hm as l Hl. inv_Ok Hm. exists l. split; [| reflexivity].
  apply mapM_Forall2 in Hl. simpl in Hl.
  eapply Forall2_impl; [| exact Hl]. intros s y Hy. simpl in Hy.
  inv_bind Hy as out Ho. inv_Ok Hy. exists out. split; [exact Ho | reflexivity].
Qed.

Lemma composite_pixel
    (within : string -> string -> Z -> bool) (coll : EE.ImageCollection)
    (time_range : string * string) (c : EE.Image) (name : string) (p : EE.Pixel) :
  createComposite within coll time_range = Ok c ->
  In name (EE.bandNames coll) ->
  match EE.value c name p with
  | None =>
      forall s out,
        In s (EE.scenes coll) ->
        within (fst time_range) (snd time_range) (fst s) = true ->
        makeCloudFree (snd s) = Ok out -> EE.value out name p = None
  | Some v =>
      (exists s out,
          In s (EE.scenes coll) /\
          within (fst time_range) (snd time_range) (fst s) = true /\
          makeCloudFree (snd s) = Ok out /\ EE.value out name p = Some v) /\
      forall s out w,
        In s (EE.scenes coll) ->
        within (fst time_range) (snd time_range) (fst s) = true ->
        makeCloudFree (snd s) = Ok out -> EE.value out name p = Some w -> v <= w
  end.
Proof.
  intros H Hin.
  destruct (createComposite_Ok _ _ _ _ H) as [l [Hl ->]].
  rewrite value_reduceMin. simpl.
  destruct (in_dec string_dec name (EE.bandNames coll)) as [_ | N];
    [| contradiction].
  pose proof (fold_omin_spec (fun s : Z * EE.Image => EE.value (snd s) name p) l)
    as Hspec.
  assert (Hfwd : forall s out,
             In s (EE.scenes coll) ->
             within (fst time_range) (snd time_range) (fst s) = true ->
             makeCloudFree (snd s) = Ok out ->
             exists y, In y l /\ snd y = out).
  { intros s out Hs Hw Ho.
    destruct (Forall2_In_l _ _ _ Hl s) as [y [Hy [out' [Eo Ey]]]].
    - apply filter_In. split; assumption.
    - rewrite Ho in Eo. injection Eo as <-. exists y. split; [exact Hy |].
      rewrite Ey. reflexivity. }
  cbv beta in Hspec.
  destruct (fold_right _ None l) as [v |].
  - destruct Hspec as [[y [Hy Ey]] Hlow]. split.
    + destruct (Forall2_In_r _ _ _ Hl y Hy) as [s [Hs [out [Eo Eq]]]].
      apply filter_In in Hs. destruct Hs as [Hs Hw].
      rewrite Eq in Ey. simpl in Ey.
      exists s, out. repeat split; assumption.
    + intros s out w Hs Hw Ho Ev.
      destruct (Hfwd s out Hs Hw Ho) as [z [Hz <-]].
      eapply Hlow; eassumption.
  - intros s out Hs Hw Ho.
    destruct (Hfwd s out Hs Hw Ho) as [y [Hy <-]].
    apply (Hspec y Hy).
Qed.

(** X8.  The composite is the minimum over the clear pixels of the images
    in range.  In every band the collection names and at every pixel: where
    an image dated within the range has a cloud score of at most 0.5 and a
    value in that band, the composite is defined and at most that value; and
    where the composite is defined, its value is the value of such an image.
    So the composite is no-data exactly where no image in range is clear and
    defined, and images outside the range or under cloud never contribute. *)
Theorem createComposite_is_minimum_of_clear_pixels :
  forall (within : string -> string -> Z -> bool) (coll : EE.ImageCollection)
         (time_range : string * string) (c : EE.Image),
    createComposite within coll time_range = Ok c ->
    forall (name : string) (p : EE.Pixel),
      In name (EE.bandNames coll) ->
      (forall t img score s w,
          In (t, img) (EE.scenes coll) ->
          within (fst time_range) (snd time_range) t = true ->
          cloudDensity img = Ok score ->
          score p = Some s -> s <= 0.5 ->
          EE.value img name p = Some w ->
          exists v, EE.value c name p = Some v /\ v <= w)
      /\
      (forall v,
          EE.value c name p = Some v ->
          exists t img score s,
            In (t, img) (EE.scenes coll) /\
            within (fst time_range) (snd time_range) t = true /\
            cloudDensity img = Ok score /\
            score p = Some s /\ s <= 0.5 /\
            EE.value img name p = Some v).
Proof.
  intros within coll time_range c H name p Hin.
  pose proof (composite_pixel _ _ _ _ name p H Hin) as Hc.
  split.
  - intros t img score s w Hs Hw Hscore Es Hle Ew.
    assert (Ho : exists out, makeCloudFree img = Ok out /\
                             EE.value out name p = Some w).
    { unfold makeCloudFree. rewrite Hscore. simpl. eexists.
      split; [reflexivity |]. rewrite value_cloudMask, Es.
      apply Qle_bool_true in Hle. rewrite Hle. exact Ew. }
    destruct Ho as [out [Eo Ev]].
    destruct (EE.value c name p) as [v |].
    + exists v. split; [reflexivity |].
      destruct Hc as [_ Hlow]. exact (Hlow (t, img) out w Hs Hw Eo Ev).
    + rewrite (Hc (t, img) out Hs Hw Eo) in Ev. discriminate Ev.
  - intros v Ev. rewrite Ev in Hc.
    destruct Hc as [[[t img] [out (Hs & Hw & Eo & Eout)]] _]. simpl in *.
    destruct (makeCloudFree_Ok _ _ Eo) as [score [Hscore [_ Hv]]].
    rewrite Hv in Eout.
    destruct (score p) as [s |] eqn:Es; [| discriminate Eout].
    destruct (Qle_bool s 0.5) eqn:Ele; [| discriminate Eout].
    apply Qle_bool_true in Ele.
    exists t, img, score, s. repeat split; assumption.
Qed.

Lemma createComposite_is_minimum_of_clear_pixels_witness :
  match createComposite Demo.within Demo.LC8 INIT with
  | Ok c => exists v, EE.value c "B6" (0, 0)%Z = Some v /\ v <= 0.55
  | Err _ => False
  end.
Proof.
  assert (Hrun : match createComposite Demo.within Demo.LC8 INIT with
                 | Ok _ => True
                 | Err _ => False
                 end) by (vm_compute; exact I).
  destruct (createComposite Demo.within Demo.LC8 INIT) as [c | e] eqn:E;
    [| exact Hrun].
  destruct (createComposite_is_minimum_of_clear_pixels _ _ _ _ E "B6" (0, 0)%Z)
    as [Hlow _].
  - unfold required_bands. simpl. tauto.
  - assert (Hs : match cloudDensity Demo.before with
                 | Ok score =>
                     exists s, score (0, 0)%Z = Some s /\ s <= 0.5
                 | Err _ => False
                 end).
    { vm_compute. eexists. split; [reflexivity | discriminate]. }
    destruct (cloudDensity Demo.before) as [score | e] eqn:Es; [| contradiction].
    destruct Hs as [s [Hs Hle]].
    apply (Hlow 20130415%Z Demo.before score s 0.55).
    + simpl. tauto.
    + reflexivity.
    + exact Es.
    + exact Hs.
    + exact Hle.
    + reflexivity.
Defined.

Lemma omin_None_r (a : option Q) : EE.omin a None = a.
Proof. destruct a; reflexivity. Qed.

(** ** The second cloud mask of [generateBurnRatio] *)

(** X9.  [generateBurnRatio] masks clouds a second time, on the composite.
    For a date range with a single image that second mask changes nothing.
    It is not redundant in general: the band-wise minimum of two clear
    images can fail the cloud test, and the second mask then removes a pixel
    that the composite had. *)
Theorem second_cloud_mask :
  (forall (within : string -> string -> Z -> bool) (coll : EE.ImageCollection)
          (time_range : string * string) (s : Z * EE.Image) (c c' : EE.Image),
      filter (fun s => within (fst time_range) (snd time_range) (fst s))
             (EE.scenes coll) = [s] ->
      createComposite within coll time_range = Ok c ->
      makeCloudFree c = Ok c' ->
      forall name p, EE.value c' name p = EE.value c name p)
  /\
  ~ (forall (within : string -> string -> Z -> bool) (coll : EE.ImageCollection)
            (time_range : string * string) (c c' : EE.Image),
        createComposite within coll time_range = Ok c ->
        makeCloudFree c = Ok c' ->
        forall name p, EE.value c' name p = EE.value c name p).
Proof.
  split.
  - intros within coll time_range s c c' Hone Hc Hc' name p.
    destruct (createComposite_Ok _ _ _ _ Hc) as [l [Hl Ec]].
    rewrite Hone in Hl.
    inversion Hl as [| s0 y l0 l1 [out [Eo Ey]] Hnil]; subst.
    inversion Hnil; subst. clear Hl Hnil.
    assert (Hval : forall m,
               EE.value
                 (EE.reduceMin {| EE.bandNames := EE.bandNames coll;
                                  EE.scenes := [(fst s, out)] |}) m p
               = if in_dec string_dec m (EE.bandNames coll)
                 then EE.value out m p else None).
    { intros m. rewrite value_reduceMin. simpl. rewrite omin_None_r.
      reflexivity. }
    destruct (makeCloudFree_Ok _ _ Hc') as [score_c [Hsc [_ Hv']]].
    destruct (makeCloudFree_Ok _ _ Eo) as [score [Hs [_ Hv]]].
    rewrite Hv'.
    destruct (EE.value
                (EE.reduceMin {| EE.bandNames := EE.bandNames coll;
                                 EE.scenes := [(fst s, out)] |}) name p)
      as [v |] eqn:Ev.
    + rewrite Hval in Ev.
      destruct (in_dec string_dec name (EE.bandNames coll)) as [Hin | _];
        [| discriminate Ev].
      rewrite Hv in Ev.
      destruct (score p) as [x |] eqn:Ex; [| discriminate Ev].
      destruct (Qle_bool x 0.5) eqn:Ele; [| discriminate Ev].
      assert (Esame : score_c p = score p).
      { eapply score_ext; [exact Hsc | exact Hs |].
        intros n Hn. rewrite Hval.
        destruct (in_dec string_dec n (EE.bandNames coll)) as [_ | N].
        - rewrite Hv, Ex, Ele. reflexivity.
        - exfalso. apply N.
          pose proof (cloudDensity_Ok_bands _ _ Hsc n Hn) as Hb.
          rewrite reduceMin_names in Hb. exact Hb. }
      rewrite Esame, Ex, Ele. reflexivity.
    + destruct (score_c p) as [y |]; [destruct (Qle_bool y 0.5) |]; reflexivity.
  - intros H.
    assert (Hrun : match createComposite Demo.within Mixed.pair INIT with
                   | Ok c =>
                       match makeCloudFree c with
                       | Ok c' =>
                           EE.value c "B6" (0, 0)%Z = Some 0.1 /\
                           EE.value c' "B6" (0, 0)%Z = None
                       | Err _ => False
                       end
                   | Err _ => False
                   end).
    { vm_compute. split; reflexivity. }
    destruct (createComposite Demo.within Mixed.pair INIT) as [c | e] eqn:Ec;
      [| exact Hrun].
    destruct (makeCloudFree c) as [c' | e] eqn:Ec'; [| exact Hrun].
    destruct Hrun as [E1 E2].
    rewrite (H _ _ _ _ _ Ec Ec' "B6" (0, 0)%Z) in E2. congruence.
Qed.

Lemma second_cloud_mask_witness :
  match createComposite Demo.within Demo.LC8 POST with
  | Ok c =>
      match makeCloudFree c with
      | Ok c' => EE.value c' "B6" (0, 0)%Z = EE.value c "B6" (0, 0)%Z
      | Err _ => False
      end
  | Err _ => False
  end.
Proof.
  assert (Hrun : match createComposite Demo.within Demo.LC8 POST with
                 | Ok c =>
                     match makeCloudFree c with
                     | Ok _ => True
                     | Err _ => False
                     end
                 | Err _ => False
                 end) by (vm_compute; exact I).
  destruct (createComposite Demo.within Demo.LC8 POST) as [c | e] eqn:Ec;
    [| exact Hrun].
  destruct (makeCloudFree c) as [c' | e] eqn:Ec'; [| exact Hrun].
  apply (proj1 second_cloud_mask Demo.within Demo.LC8 POST
               (20140615%Z, Demo.after) c c');
    [reflexivity | exact Ec | exact Ec'].
Defined.

Example pair_images_are_clear :
  match cloudDensity Mixed.warm_plain, cloudDensity Mixed.cold_snow with
  | Ok s1, Ok s2 =>
      match s1 (0, 0)%Z, s2 (0, 0)%Z with
      | Some v1, Some v2 => v1 <= 0.5 /\ v2 <= 0.5
      | _, _ => False
      end
  | _, _ => False
  end.
Proof. vm_compute. split; discriminate. Qed.

(** ** Further properties of the burn ratio *)

(** X10.  Burn detection is directional.  A season compared with itself has
    no burned pixel, and no pixel is burned both from a first season to a
    second and from the second to the first. *)
Theorem generateBurnRatio_is_directional :
  forall (within : string -> string -> Z -> bool) (coll : EE.ImageCollection)
         (a b : string * string),
    (forall burn,
        generateBurnRatio within coll a a = Ok burn -> forall p, burn p = None)
    /\
    (forall forth back,
        generateBurnRatio within coll a b = Ok forth ->
        generateBurnRatio within coll b a = Ok back ->
        forall p, forth p = None \/ back p = None).
Proof.
  intros within coll a b. split.
  - intros burn H p.
    destruct (generateBurnRatio_Ok _ _ _ _ _ H)
      as (init & post & ni & np & Hi & Hp & Hni & Hnp & Hb).
    rewrite Hi in Hp. inv_Ok Hp. rewrite Hni in Hnp. inv_Ok Hnp.
    rewrite Hb. destruct (np p) as [x |]; [| reflexivity].
    destruct (Qle_bool (x - x) 0.44) eqn:E; [reflexivity |].
    apply Qle_bool_false in E. exfalso. apply E. lra.
  - intros forth back Hf Hk p.
    destruct (generateBurnRatio_Ok _ _ _ _ _ Hf)
      as (init & post & ni & np & Hi & Hp & Hni & Hnp & Hb).
    destruct (generateBurnRatio_Ok _ _ _ _ _ Hk)
      as (init' & post' & ni' & np' & Hi' & Hp' & Hni' & Hnp' & Hb').
    rewrite Hp in Hi'. inv_Ok Hi'. rewrite Hi in Hp'. inv_Ok Hp'.
    rewrite Hnp in Hni'. inv_Ok Hni'. rewrite Hni in Hnp'. inv_Ok Hnp'.
    rewrite Hb, Hb'.
    destruct (ni' p) as [x |]; [| left; reflexivity].
    destruct (np' p) as [y |]; [| right; reflexivity].
    destruct (Qle_bool (x - y) 0.44) eqn:E; [left; reflexivity |].
    destruct (Qle_bool (y - x) 0.44) eqn:E'; [right; reflexivity |].
    apply Qle_bool_false in E, E'. exfalso. apply E.
    assert (0.44 < y - x) by lra. lra.
Qed.

(** X11.  A burn is reported only where both composites pass the cloud
    test: at every pixel that carries a value in the result, the composite
    of each season has all seven bands defined and a cloud score of at most
    0.5. *)
Theorem burn_only_where_both_seasons_are_clear :
  forall (within : string -> string -> Z -> bool) (coll : EE.ImageCollection)
         (init_season post_season : string * string) (burn : EE.Band),
    generateBurnRatio within coll init_season post_season = Ok burn ->
    exists c_init c_post score_init score_post,
      createComposite within coll init_season = Ok c_init /\
      createComposite within coll post_season = Ok c_post /\
      cloudDensity c_init = Ok score_init /\
      cloudDensity c_post = Ok score_post /\
      forall p : EE.Pixel,
        burn p <> None ->
        (exists s, score_init p = Some s /\ s <= 0.5) /\
        (exists s, score_post p = Some s /\ s <= 0.5) /\
        (forall n, In n required_bands ->
                   EE.value c_init n p <> None /\ EE.value c_post n p <> None).
Proof.
  intros within coll init_season post_season burn H.
  destruct (generateBurnRatio_Ok _ _ _ _ _ H)
    as (init & post & ni & np & Hi & Hp & Hni & Hnp & Hb).
  inv_bind Hi as ci Hci. inv_bind Hp as cp Hcp.
  destruct (makeCloudFree_Ok _ _ Hi) as [si [Hsi [_ Vi]]].
  destruct (makeCloudFree_Ok _ _ Hp) as [sp [Hsp [_ Vp]]].
  exists ci, cp, si, sp. repeat (split; [assumption |]).
  intros p Hburn. rewrite Hb in Hburn.
  rewrite (normalizedDifference_value _ _ _ _ Hni) in Hburn.
  rewrite (normalizedDifference_value _ _ _ _ Hnp) in Hburn.
  rewrite !Vi, !Vp in Hburn.
  assert (Hclear : forall (c : EE.Image) (s : EE.Band),
             cloudDensity c = Ok s ->
             forall x, s p = Some x -> Qle_bool x 0.5 = true ->
             (exists x, s p = Some x /\ x <= 0.5) /\
             forall n, In n required_bands -> EE.value c n p <> None).
  { intros c s Hs x Ex Ele. split.
    - exists x. split; [exact Ex | apply Qle_bool_true; exact Ele].
    - destruct (cloudDensity_Ok _ _ Hs) as [_ [_ P]].
      assert (D : all_some (zip_with rescaled calibration (raw_values c p))
                  <> None).
      { intros N. rewrite P, N in Ex. discriminate Ex. }
      apply raw_values_defined in D. exact (proj1 D). }
  destruct (sp p) as [y |] eqn:Ey;
    [destruct (Qle_bool y 0.5) eqn:Ly |]; try (exfalso; apply Hburn; reflexivity).
  destruct (si p) as [x |] eqn:Ex;
    [destruct (Qle_bool x 0.5) eqn:Lx |];
    try (exfalso; apply Hburn; simpl;
         destruct (EE.nd (EE.value cp "B6" p) (EE.value cp "B4" p)); reflexivity).
  destruct (Hclear ci si Hsi x Ex Lx) as [Ci Bi].
  destruct (Hclear cp sp Hsp y Ey Ly) as [Cp Bp].
  rewrite Ex in Ci. rewrite Ey in Cp.
  split; [exact Ci |]. split; [exact Cp |].
  intros n Hn. split; [apply Bi | apply Bp]; exact Hn.
Qed.

Lemma burn_only_where_both_seasons_are_clear_witness :
  match generateBurnRatio Demo.within Demo.LC8 INIT POST with
  | Ok burn =>
      exists c_init score_init,
        createComposite Demo.within Demo.LC8 INIT = Ok c_init /\
        cloudDensity c_init = Ok score_init /\
        exists s, score_init (0, 0)%Z = Some s /\ s <= 0.5
  | Err _ => False
  end.
Proof.
  assert (Hrun : match generateBurnRatio Demo.within Demo.LC8 INIT POST with
                 | Ok burn => burn (0, 0)%Z <> None
                 | Err _ => False
                 end) by (vm_compute; discriminate).
  destruct (generateBurnRatio Demo.within Demo.LC8 INIT POST) as [burn | e] eqn:E;
    [| exact Hrun].
  destruct (burn_only_where_both_seasons_are_clear _ _ _ _ _ E)
    as (ci & cp & si & sp & Hci & Hcp & Hsi & Hsp & Hclear).
  exists ci, si. split; [exact Hci |]. split; [exact Hsi |].
  exact (proj1 (Hclear (0, 0)%Z Hrun)).
Defined.

Lemma createComposite_total_in_range
    (within : string -> string -> Z -> bool) (coll : EE.ImageCollection)
    (time_range : string * string) :
  (forall s, In s (EE.scenes coll) ->
             within (fst time_range) (snd time_range) (fst s) = true ->
             incl required_bands (List.map fst (snd s))) ->
  exists c, createComposite within coll time_range = Ok c.
Proof.
  intros H. destruct time_range as [start end_]. simpl in H.
  unfold createComposite, EE.map.
  destruct (mapM_total
              (fun s => img <- makeCloudFree (snd s) ;; Ok (fst s, img))
              (EE.scenes (EE.filterDate within coll start end_))) as [l El].
  - simpl. apply Forall_forall. intros s Hs. apply filter_In in Hs.
    destruct Hs as [Hs Hw].
    destruct (makeCloudFree_total (snd s) (H s Hs Hw)) as [img [Ei _]].
    rewrite Ei. simpl. eexists. reflexivity.
  - rewrite El. simpl. eexists. reflexivity.
Qed.

Lemma createComposite_Ok_in_range
    (within : string -> string -> Z -> bool) (coll : EE.ImageCollection)
    (time_range : string * string) (c : EE.Image) :
  createComposite within coll time_range = Ok c ->
  forall s, In s (EE.scenes coll) ->
            within (fst time_range) (snd time_range) (fst s) = true ->
            incl required_bands (List.map fst (snd s)).
Proof.
  intros H s Hs Hw.
  destruct (createComposite_Ok _ _ _ _ H) as [l [Hl _]].
  destruct (Forall2_In_l _ _ _ Hl s) as [y [_ [out [Eo _]]]].
  - apply filter_In. split; assumption.
  - destruct (makeCloudFree_Ok _ _ Eo) as [score [Hscore _]].
    eapply cloudDensity_Ok_bands. exact Hscore.
Qed.

(** X12.  [generateBurnRatio] evaluates exactly when the collection names
    the seven bands B2, B3, B4, B5, B6, B7 and B10 and every image dated
    within either of the two ranges carries them; in every other case it
    fails with a band mismatch.  Images outside both ranges are never
    read. *)
Theorem generateBurnRatio_evaluates_iff :
  forall (within : string -> string -> Z -> bool) (coll : EE.ImageCollection)
         (init_season post_season : string * string),
    let carries :=
      incl required_bands (EE.bandNames coll) /\
      forall s, In s (EE.scenes coll) ->
                within (fst init_season) (snd init_season) (fst s) = true \/
                within (fst post_season) (snd post_season) (fst s) = true ->
                incl required_bands (List.map fst (snd s)) in
    (carries ->
     exists burn, generateBurnRatio within coll init_season post_season = Ok burn)
    /\
    (~ carries ->
     generateBurnRatio within coll init_season post_season
     = Err BandMismatchError).
Proof.
  intros within coll init_season post_season carries. split.
  - intros [Hb Hs].
    assert (Hfree : forall season,
               (forall s, In s (EE.scenes coll) ->
                          within (fst season) (snd season) (fst s) = true ->
                          incl required_bands (List.map fst (snd s))) ->
               exists img,
                 (c <- createComposite within coll season ;; makeCloudFree c)
                 = Ok img
                 /\ List.map fst img = EE.bandNames coll).
    { intros season Hseason.
      destruct (createComposite_total_in_range within coll season Hseason)
        as [c Ec].
      pose proof (createComposite_names _ _ _ _ Ec) as Hn.
      destruct (makeCloudFree_total c) as [img [Ei Hi]]; [rewrite Hn; exact Hb |].
      exists img. rewrite Ec. simpl. split; [exact Ei |]. rewrite Hi. exact Hn. }
    destruct (Hfree init_season) as [init [Ei Ni]];
      [intros s Hin Hw; apply (Hs s Hin); left; exact Hw |].
    destruct (Hfree post_season) as [post [Ep Np]];
      [intros s Hin Hw; apply (Hs s Hin); right; exact Hw |].
    destruct (normalizedDifference_total init) as [ni Eni];
      [rewrite Ni; exact Hb |].
    destruct (normalizedDifference_total post) as [np Enp];
      [rewrite Np; exact Hb |].
    unfold generateBurnRatio. rewrite Ei, Ep. simpl. rewrite Eni, Enp. simpl.
    eexists. reflexivity.
  - intros Hnot.
    destruct (generateBurnRatio within coll init_season post_season)
      as [burn | e] eqn:E.
    + exfalso. apply Hnot.
      destruct (generateBurnRatio_Ok _ _ _ _ _ E)
        as (init & post & ni & np & Hi & Hp & _).
      inv_bind Hi as ci Hci. inv_bind Hp as cp Hcp.
      destruct (makeCloudFree_Ok _ _ Hi) as [si [Hsi _]].
      split.
      * rewrite <- (createComposite_names _ _ _ _ Hci).
        eapply cloudDensity_Ok_bands. exact Hsi.
      * intros s Hin [Hw | Hw].
        -- exact (createComposite_Ok_in_range _ _ _ _ Hci s Hin Hw).
        -- exact (createComposite_Ok_in_range _ _ _ _ Hcp s Hin Hw).
    + rewrite (only_mismatch_generateBurnRatio _ _ _ _ e E). reflexivity.
Qed.

Lemma generateBurnRatio_evaluates_iff_witness :
  exists burn, generateBurnRatio Demo.within Demo.LC8 INIT POST = Ok burn.
Proof.
  apply (proj1 (generateBurnRatio_evaluates_iff Demo.within Demo.LC8 INIT POST)).
  split; [apply incl_refl |].
  intros s [<- | [<- | [<- | []]]] _; apply incl_refl.
Defined.

(** ** Equal rasters through the pipeline *)

Lemma pixel_eq_sym (a b : option Q) : pixel_eq a b -> pixel_eq b a.
Proof.
  destruct a, b; simpl; try tauto. apply Qeq_sym.
Qed.

Lemma Qle_bool_compat (x y c : Q) : x == y -> Qle_bool x c = Qle_bool y c.
Proof.
  intros E. destruct (Qle_bool x c) eqn:Ex, (Qle_bool y c) eqn:Ey;
    try reflexivity;
    repeat match goal with
           | H : Qle_bool _ _ = true |- _ => apply Qle_bool_true in H
           | H : Qle_bool _ _ = false |- _ => apply Qle_bool_false in H
           end; exfalso.
  - apply Ey. rewrite <- E. exact Ex.
  - apply Ex. rewrite E. exact Ey.
Qed.

Lemma Qeq_bool_compat (x y : Q) : x == y -> Qeq_bool x 0 = Qeq_bool y 0.
Proof.
  intros E. destruct (Qeq_bool x 0) eqn:Ex, (Qeq_bool y 0) eqn:Ey;
    try reflexivity; exfalso.
  - apply Qeq_bool_iff in Ex. apply Qeq_bool_false in Ey. apply Ey.
    rewrite <- E. exact Ex.
  - apply Qeq_bool_iff in Ey. apply Qeq_bool_false in Ex. apply Ex.
    rewrite E. exact Ey.
Qed.

Lemma oplus_compat (a a' b b' : option Q) :
  pixel_eq a a' -> pixel_eq b b' -> pixel_eq (oplus a b) (oplus a' b').
Proof.
  destruct a, a', b, b'; simpl; try tauto. intros E1 E2. rewrite E1, E2.
  reflexivity.
Qed.

Lemma nd_compat (a a' b b' : option Q) :
  pixel_eq a a' -> pixel_eq b b' -> pixel_eq (EE.nd a b) (EE.nd a' b').
Proof.
  destruct a as [x |], a' as [x' |], b as [y |], b' as [y' |]; simpl; try tauto.
  intros E1 E2.
  assert (Es : x + y == x' + y') by (rewrite E1, E2; reflexivity).
  rewrite (Qeq_bool_compat _ _ Es).
  destruct (Qeq_bool (x' + y') 0) eqn:Ez; simpl; [exact I |].
  rewrite E1, E2. reflexivity.
Qed.

Lemma rescaled_compat (th : Q * Q) (a a' : option Q) :
  pixel_eq a a' -> pixel_eq (rescaled th a) (rescaled th a').
Proof.
  destruct a, a'; simpl; try tauto. intros E. rewrite E. reflexivity.
Qed.

(** Equal signals give equal scores. *)
Lemma score_of_equal_signals (l l' : list (option Q)) :
  Forall2 pixel_eq l l' ->
  forall a a', a == a' ->
    pixel_eq
      match all_some l with
      | Some vs => Some (fold_left Qmin vs a)
      | None => None
      end
      match all_some l' with
      | Some vs => Some (fold_left Qmin vs a')
      | None => None
      end.
Proof.
  induction 1 as [| x x' l l' Hx _ IH]; intros a a' Ha; simpl.
  - exact Ha.
  - destruct x as [v |], x' as [v' |]; simpl in Hx; try contradiction.
    + specialize (IH (Qmin a v) (Qmin a' v')
                     ltac:(apply Q.min_compat; assumption)).
      destruct (all_some l), (all_some l'); simpl in *; try contradiction;
        exact IH.
    + exact I.
Qed.

Lemma lookup_image_eq (a b : EE.Image) (name : string) :
  image_eq a b ->
  match EE.lookup name a, EE.lookup name b with
  | Some x, Some y => forall p, pixel_eq (x p) (y p)
  | None, None => True
  | _, _ => False
  end.
Proof.
  induction 1 as [| [n x] [n' y] a b [En Hp] _ IH]; simpl; [exact I |].
  simpl in En, Hp. subst n'.
  destruct (String.eqb name n); [exact Hp | exact IH].
Qed.

Lemma value_image_eq (a b : EE.Image) (name : string) (p : EE.Pixel) :
  image_eq a b -> pixel_eq (EE.value a name p) (EE.value b name p).
Proof.
  intros H. pose proof (lookup_image_eq a b name H) as Hl. unfold EE.value.
  destruct (EE.lookup name a), (EE.lookup name b); try contradiction.
  - apply Hl.
  - exact I.
Qed.

Lemma image_eq_names (a b : EE.Image) :
  image_eq a b -> List.map fst a = List.map fst b.
Proof.
  induction 1 as [| x y a b [En _] _ IH]; simpl; [reflexivity |].
  f_equal; assumption.
Qed.

Lemma cloudDensity_image_eq (a b : EE.Image) (sa : EE.Band) :
  image_eq a b -> cloudDensity a = Ok sa ->
  exists sb, cloudDensity b = Ok sb /\ forall p, pixel_eq (sa p) (sb p).
Proof.
  intros H Ha.
  destruct (cloudDensity_total b) as [sb Hb].
  { rewrite <- (image_eq_names a b H). eapply cloudDensity_Ok_bands. exact Ha. }
  exists sb. split; [exact Hb |]. intros p.
  destruct (cloudDensity_Ok _ _ Ha) as [_ [_ Pa]].
  destruct (cloudDensity_Ok _ _ Hb) as [_ [_ Pb]].
  rewrite Pa, Pb. apply score_of_equal_signals; [| reflexivity].
  unfold raw_values. simpl.
  repeat constructor; apply rescaled_compat;
    repeat first [ apply value_image_eq; exact H
                 | apply oplus_compat
                 | apply nd_compat ].
Qed.

Lemma mask_image_eq (a b : EE.Image) (sa sb : EE.Band) (t : Q) :
  image_eq a b -> (forall p, pixel_eq (sa p) (sb p)) ->
  image_eq (cloudMask a sa t) (cloudMask b sb t).
Proof.
  intros H Hs. unfold cloudMask, EE.mask, image_eq.
  induction H as [| [n x] [n' y] a b [En Hp] _ IH]; simpl; constructor;
    [| exact IH].
  simpl in *. split; [exact En |]. intros p. rewrite !mask1_lte.
  specialize (Hs p). destruct (sa p) as [u |], (sb p) as [u' |];
    simpl in Hs; try contradiction; [| exact I].
  rewrite (Qle_bool_compat _ _ t Hs).
  destruct (Qle_bool u' t); [apply Hp | exact I].
Qed.

Lemma makeCloudFree_image_eq (a b out : EE.Image) :
  image_eq a b -> makeCloudFree a = Ok out ->
  exists out', makeCloudFree b = Ok out' /\ image_eq out out'.
Proof.
  unfold makeCloudFree. intros H Ha. inv_bind Ha as sa Hsa. inv_Ok Ha.
  destruct (cloudDensity_image_eq a b sa H Hsa) as [sb [Hsb Hs]].
  rewrite Hsb. simpl. eexists. split; [reflexivity |].
  apply mask_image_eq; assumption.
Qed.

Lemma normalizedDifference_image_eq (a b : EE.Image) (x y : string) (r : EE.Band) :
  image_eq a b -> EE.normalizedDifference a x y = Ok r ->
  exists r', EE.normalizedDifference b x y = Ok r' /\
             forall p, pixel_eq (r p) (r' p).
Proof.
  intros H Ha.
  pose proof (lookup_image_eq a b x H) as Lx.
  pose proof (lookup_image_eq a b y H) as Ly.
  unfold EE.normalizedDifference, EE.select in *.
  destruct (EE.lookup x a) as [bx |]; [| discriminate Ha].
  destruct (EE.lookup y a) as [byy |]; [| discriminate Ha].
  destruct (EE.lookup x b) as [bx' |]; [| contradiction].
  destruct (EE.lookup y b) as [byy' |]; [| contradiction].
  simpl in *. inv_Ok Ha. eexists. split; [reflexivity |].
  intros p. apply nd_compat; [apply Lx | apply Ly].
Qed.

Lemma createComposite_Permutation_Ok
    (within : string -> string -> Z -> bool) (c c' : EE.ImageCollection)
    (time_range : string * string) (a : EE.Image) :
  EE.bandNames c = EE.bandNames c' ->
  Permutation (EE.scenes c) (EE.scenes c') ->
  createComposite within c time_range = Ok a ->
  exists b, createComposite within c' time_range = Ok b /\ image_eq a b.
Proof.
  intros Hn Hp H. destruct time_range as [start end_].
  unfold createComposite in *. inv_bind H as m Hm. inv_Ok H.
  unfold EE.map in *. inv_bind Hm as l Hl. inv_Ok Hm.
  assert (Hf : Permutation (EE.scenes (EE.filterDate within c start end_))
                           (EE.scenes (EE.filterDate within c' start end_))).
  { simpl. apply filter_Permutation. exact Hp. }
  destruct (mapM_Permutation _ _ _ Hf _ Hl) as [l' [El' Pl']].
  rewrite El'. simpl. eexists. split; [reflexivity |].
  apply reduceMin_Permutation; simpl; assumption.
Qed.

Lemma generateBurnRatio_Permutation_Ok
    (within : string -> string -> Z -> bool) (c c' : EE.ImageCollection)
    (init_season post_season : string * string) (r : EE.Band) :
  EE.bandNames c = EE.bandNames c' ->
  Permutation (EE.scenes c) (EE.scenes c') ->
  generateBurnRatio within c init_season post_season = Ok r ->
  exists r', generateBurnRatio within c' init_season post_season = Ok r' /\
             forall p, r p = r' p.
Proof.
  intros Hn Hp H.
  destruct (generateBurnRatio_Ok _ _ _ _ _ H)
    as (init & post & ni & np & Hi & Hq & Hni & Hnp & Hb).
  assert (Hfree : forall season img,
             (x <- createComposite within c season ;; makeCloudFree x) = Ok img ->
             exists img',
               (x <- createComposite within c' season ;; makeCloudFree x) = Ok img'
               /\ image_eq img img').
  { intros season img E. inv_bind E as x Hx.
    destruct (createComposite_Permutation_Ok _ _ _ _ _ Hn Hp Hx) as [x' [Ex' Hxx]].
    destruct (makeCloudFree_image_eq _ _ _ Hxx E) as [img' [Ei Hii]].
    exists img'. rewrite Ex'. simpl. split; assumption. }
  destruct (Hfree _ _ Hi) as [init' [Ei Hii]].
  destruct (Hfree _ _ Hq) as [post' [Ep Hpp]].
  destruct (normalizedDifference_image_eq _ _ _ _ _ Hii Hni) as [ni' [Eni Hnn]].
  destruct (normalizedDifference_image_eq _ _ _ _ _ Hpp Hnp) as [np' [Enp Hmm]].
  unfold generateBurnRatio. rewrite Ei, Ep. simpl. rewrite Eni, Enp. simpl.
  eexists. split; [reflexivity |]. intros p. rewrite Hb, burn_pixel.
  specialize (Hnn p). specialize (Hmm p).
  destruct (np p) as [x |], (np' p) as [x' |]; simpl in Hmm;
    try contradiction; [| reflexivity].
  destruct (ni p) as [y |], (ni' p) as [y' |]; simpl in Hnn;
    try contradiction; [| reflexivity].
  assert (E : x - y == x' - y') by (rewrite Hmm, Hnn; reflexivity).
  rewrite (Qle_bool_compat _ _ 0.44 E). reflexivity.
Qed.

(** X14.  The burn mask does not depend on the order of the collection: two
    collections with the same band names whose images are a permutation of
    each other give, for every pair of date ranges, the same result at
    every pixel, or both fail with the same error. *)
Theorem generateBurnRatio_order_independent :
  forall (within : string -> string -> Z -> bool) (c c' : EE.ImageCollection)
         (init_season post_season : string * string),
    EE.bandNames c = EE.bandNames c' ->
    Permutation (EE.scenes c) (EE.scenes c') ->
    match generateBurnRatio within c init_season post_season,
          generateBurnRatio within c' init_season post_season with
    | Ok r, Ok r' => forall p, r p = r' p
    | Err e, Err e' => e = e'
    | _, _ => False
    end.
Proof.
  intros within c c' init_season post_season Hn Hp.
  destruct (generateBurnRatio within c init_season post_season)
    as [r | e] eqn:E.
  - destruct (generateBurnRatio_Permutation_Ok _ _ _ _ _ _ Hn Hp E)
      as [r' [E' Hr]].
    rewrite E'. exact Hr.
  - destruct (generateBurnRatio within c' init_season post_season)
      as [r' | e'] eqn:E'.
    + destruct (generateBurnRatio_Permutation_Ok _ _ _ _ _ _ (eq_sym Hn)
                  (Permutation_sym Hp) E') as [r [Er _]].
      rewrite E in Er. discriminate Er.
    + rewrite (only_mismatch_generateBurnRatio _ _ _ _ e E).
      rewrite (only_mismatch_generateBurnRatio _ _ _ _ e' E'). reflexivity.
Qed.

Lemma generateBurnRatio_order_independent_witness :
  match generateBurnRatio Demo.within Demo.LC8 INIT POST,
        generateBurnRatio Demo.within Demo.LC8_shuffled INIT POST with
  | Ok r, Ok r' => r (0, 0)%Z = r' (0, 0)%Z
  | Err e, Err e' => e = e'
  | _, _ => False
  end.
Proof.
  assert (Hperm : Permutation (EE.scenes Demo.LC8) (EE.scenes Demo.LC8_shuffled)).
  { simpl. eapply perm_trans; [apply perm_swap |].
    eapply perm_trans; [apply perm_skip, perm_swap |]. apply perm_swap. }
  pose proof (generateBurnRatio_order_independent
                Demo.within Demo.LC8 Demo.LC8_shuffled INIT POST eq_refl Hperm)
    as H.
  revert H.
  destruct (generateBurnRatio Demo.within Demo.LC8 INIT POST) as [r | e];
    destruct (generateBurnRatio Demo.within Demo.LC8_shuffled INIT POST)
      as [r' | e']; intros H; try exact H.
  exact (H (0, 0)%Z).
Defined.
